(** * BirT: the reconstruction loop of [VolumeRaytraceLFM.reconstructions]

    A shallow embedding of the parts of [Reconstructor] (and of
    [PolarimetricLossFunction]) that the properties below talk about.

    Conventions.
    - A one-dimensional tensor is a [list]; the optic axis, a tensor of shape
      (3, n), is the list of its n columns, each a [Vec3] whose fields
      [c0], [c1], [c2] are rows 0, 1 and 2.
    - Python attributes that may be absent or [None] are [option]s.
    - An exception is [None] (or [inl] with the exception) in the result.
    - Scalars are rationals [Q] where only field arithmetic is involved and
      reals [R] where the code takes square roots, sines or cosines; IEEE
      special values are added explicitly ([fval]) where the code tests for
      them or where a product or quotient can yield them. Rounding is not
      modelled, except for the quotient of [DampingRounded], which is
      compared with 0 after it is rounded. *)

From Stdlib Require Import List ZArith QArith Qabs Reals Lra Lia Ascii String.
From stdpp Require Import base option list gmap strings.
Import ListNotations.

#[local] Open Scope nat_scope.

(** ** Tensors *)

Module Torch.

(** [torch.where(mask)[0]]: the positions holding [True], ascending. *)
Fixpoint where_from (k : nat) (mask : list bool) : list nat :=
  match mask with
  | [] => []
  | b :: m => if b then k :: where_from (S k) m else where_from (S k) m
  end.

Definition where_ (mask : list bool) : list nat := where_from 0 mask.

(** [torch.sum(mask)] on a boolean tensor. *)
Definition count_true (mask : list bool) : nat :=
  length (filter (fun b => b = true) mask).

(** [torch.full((n,), v)] and [torch.arange(n)] (dtype long). *)
Definition full {A} (n : nat) (v : A) : list A := replicate n v.
Definition arange (n : nat) : list Z := map Z.of_nat (seq 0 n).

(** [t[idx]] with an index tensor: gathers, [IndexError] out of range. *)
Definition gather {A} (t : list A) (idx : list nat) : option (list A) :=
  mapM (fun i => t !! i) idx.

(** [t[idx] = vals]: writes in order, [IndexError] out of range, shape
    error when [idx] and [vals] differ in length. *)
Fixpoint index_put {A} (t : list A) (idx : list nat) (vals : list A)
  : option (list A) :=
  match idx, vals with
  | [], [] => Some t
  | i :: idx', v :: vals' =>
      if decide (i < length t) then index_put (<[i:=v]> t) idx' vals'
      else None
  | _, _ => None
  end.

(** A tensor together with its autograd flag. *)
Record Tensor (A : Type) := mkTensor { data : list A; requires_grad : bool }.
Arguments mkTensor {A} _ _.
Arguments data {A} _.
Arguments requires_grad {A} _.

(** [torch.nn.Parameter(t)]: same data, gradient tracking on. *)
Definition nn_Parameter {A} (d : list A) : Tensor A := mkTensor d true.

End Torch.

(** ** Volumes *)

Module Vol.
Import Torch.

Section Volume.
Context {F : Type}.

(** One column of a (3, n) tensor. *)
Record Vec3 := mkVec3 { c0 : F; c1 : F; c2 : F }.


(** [optic_axis_planar] is a parameter made from [optic_axis_active[1:, :]]: basic
    slicing gives a view and the parameter keeps the storage, so the
    parameter is a window on the rows [first_row..] of the buffer of
    [optic_axis_active], not a copy. *)
Record RowView := mkRowView { first_row : nat; view_requires_grad : bool }.

Record Volume := mkVolume {
  Delta_n : Tensor F;
  optic_axis : Tensor Vec3;
  indices_active : option (list nat);
  active_idx2spatial_idx_tensor : option (list Z);
  optic_axis_active : option (Tensor Vec3);
  optic_axis_planar : option RowView;
  birefringence_active : option (Tensor F);
}.


(** [Reconstructor.create_parameters_from_mask]. *)
Definition create_parameters_from_mask (two_optic_axis_components : bool)
    (volume : Volume) (mask : list bool) : option Volume :=
  let active_indices := where_ mask in
  let max_index := length mask in
  let idx_tensor := full (max_index + 1) (-1)%Z in
  let positions := arange (length active_indices) in
  idx_tensor ← index_put idx_tensor active_indices positions;
  if two_optic_axis_components then
    let optic_axis' := mkTensor (data (optic_axis volume)) false in
    act ← gather (data optic_axis') active_indices;
    bir ← gather (data (Delta_n volume)) active_indices;
    Some {| Delta_n := Delta_n volume;
            optic_axis := optic_axis';
            indices_active := Some active_indices;
            active_idx2spatial_idx_tensor := Some idx_tensor;
            optic_axis_active := Some (mkTensor act false);
            optic_axis_planar := Some (mkRowView 1 true);
            birefringence_active := Some (nn_Parameter bir) |}
  else
    act ← gather (data (optic_axis volume)) active_indices;
    bir ← gather (data (Delta_n volume)) active_indices;
    Some {| Delta_n := Delta_n volume;
            optic_axis := optic_axis volume;
            indices_active := Some active_indices;
            active_idx2spatial_idx_tensor := Some idx_tensor;
            optic_axis_active := Some (nn_Parameter act);
            optic_axis_planar := optic_axis_planar volume;
            birefringence_active := Some (nn_Parameter bir) |}.

End Volume.
Arguments Vec3 : clear implicits.
Arguments Volume : clear implicits.

(** A mask over 10 voxels that selects voxels 1, 4 and 7. *)
Definition mask_1_4_7 : list bool :=
  [false; true; false; false; true; false; false; true; false; false].

(** A volume of [n] voxels: birefringence i at voxel i, axis (1, 0, i). *)
Definition ramp_volume (n : nat) : Volume Z :=
  {| Delta_n := mkTensor (map Z.of_nat (seq 0 n)) true;
     optic_axis :=
       mkTensor (map (fun i => mkVec3 1%Z 0%Z (Z.of_nat i)) (seq 0 n)) true;
     indices_active := None;
     active_idx2spatial_idx_tensor := None;
     optic_axis_active := None;
     optic_axis_planar := None;
     birefringence_active := None |}.

End Vol.

(** ** IEEE special values *)

Module Floats.

(** A floating-point value over a carrier [K] of finite values. *)
Inductive fval (K : Type) : Type :=
| Fin (x : K)
| Inf (negative : bool)
| NaN.
Arguments Fin {K} _.
Arguments Inf {K} _.
Arguments NaN {K}.

Definition isnan {K} (x : fval K) : bool :=
  match x with NaN => true | _ => false end.

Definition isfinite {K} (x : fval K) : bool :=
  match x with Fin _ => true | _ => false end.

#[local] Open Scope Q_scope.

(** [a / b] on finite operands: 0/0 is NaN, x/0 is a signed infinity; no
    exception is raised. *)
Definition fdiv (a b : Q) : fval Q :=
  if Qeq_bool b 0 then
    if Qeq_bool a 0 then NaN else Inf (negb (Qle_bool 0 a))
  else Fin (a / b).

(** [x == 0]: false on NaN and on the infinities. *)
Definition feq0 (x : fval Q) : bool :=
  match x with Fin q => Qeq_bool q 0 | _ => false end.

End Floats.

(** ** Azimuth damping at the end of an epoch of [reconstruct] *)

Module Damping.
Import Floats.
#[local] Open Scope Q_scope.

Definition Qmax2 (a b : Q) : Q := if Qle_bool a b then b else a.

(** [image.max()]: raises on an empty image. *)
Definition img_max (image : list Q) : option Q :=
  match image with
  | [] => None
  | x :: rest => Some (foldl Qmax2 x rest)
  end.

(** [self.ret_img_meas / self.ret_img_meas.max()]. *)
Definition azim_damp_mask (ret_img_meas : list Q) : option (list (fval Q)) :=
  m ← img_max ret_img_meas;
  Some (map (fun r => fdiv r m) ret_img_meas).

(** [img[mask] = 0] with a boolean mask of the same shape. *)
Definition zero_where (img : list Q) (mask : list bool) : option (list Q) :=
  if decide (length img = length mask) then
    Some (zip_with (fun a (b : bool) => if b then 0 else a) img mask)
  else None.

(** The two lines
    [azim_damp_mask = self._to_numpy(self.ret_img_meas / self.ret_img_meas.max())]
    [self.azim_img_pred[azim_damp_mask == 0] = 0]. *)
Definition damp_azimuth (ret_img_meas azim_img_pred : list Q)
  : option (list Q) :=
  mask ← azim_damp_mask ret_img_meas;
  zero_where azim_img_pred (map feq0 mask).

(** The guard the specification asks for: with a zero maximum, no quotient
    by that maximum is formed (so none of them is 0/0 or x/0). *)
Definition division_guarded (ret_img_meas : list Q) : Prop :=
  forall m quotients,
    img_max ret_img_meas = Some m -> m == 0 ->
    azim_damp_mask ret_img_meas = Some quotients ->
    Forall (fun q => isfinite q = true) quotients.

End Damping.

(** ** Azimuth damping with a rounded quotient *)

(** The same two lines, with the quotient by a non-zero maximum rounded to
    the floating-point type of the images: a quotient of small magnitude
    can underflow to 0, one of large magnitude can overflow to an infinity.
    The pixel values themselves are finite. *)
Module DampingRounded.
Import Floats Damping.
#[local] Open Scope Q_scope.

Section Rounding.
(** The rounding of an exact value to the floating-point type. *)
Variable rnd : Q -> fval Q.

(** [a / b]: 0/0 is NaN, x/0 is a signed infinity, and every other
    quotient is rounded. *)
Definition fdiv (a b : Q) : fval Q :=
  if Qeq_bool b 0 then
    if Qeq_bool a 0 then NaN else Inf (negb (Qle_bool 0 a))
  else rnd (a / b).

(** [self.ret_img_meas / self.ret_img_meas.max()]. *)
Definition azim_damp_mask (ret_img_meas : list Q) : option (list (fval Q)) :=
  m ← img_max ret_img_meas;
  Some (map (fun r => fdiv r m) ret_img_meas).

(** The two lines
    [azim_damp_mask = self._to_numpy(self.ret_img_meas / self.ret_img_meas.max())]
    [self.azim_img_pred[azim_damp_mask == 0] = 0]. *)
Definition damp_azimuth (ret_img_meas azim_img_pred : list Q)
  : option (list Q) :=
  mask ← azim_damp_mask ret_img_meas;
  zero_where azim_img_pred (map feq0 mask).

End Rounding.

(** Binary32 (the default type of a torch tensor) as far as a comparison
    with 0 or with an infinity can see it: under round-to-nearest-even a
    magnitude up to 2^-150, half the smallest subnormal, becomes 0, a
    magnitude from 2^128 - 2^103 on becomes an infinity, and every value in
    between stays finite and non-zero. The precision of the finite results
    is not modelled. *)
Definition range32 (q : Q) : fval Q :=
  if Qle_bool (Qabs q) (1 # (2 ^ 150))
  then Fin 0
  else if Qle_bool (inject_Z (2 ^ 128 - 2 ^ 103)) (Qabs q)
       then Inf (negb (Qle_bool 0 q))
       else Fin q.

(** Three pixels of binary32 retardance: 2^-100, 0 and 2^100. *)
Definition faint_pixel_image : list Q :=
  [1 # (2 ^ 100); 0; inject_Z (2 ^ 100)].

End DampingRounded.

(** ** Loss bookkeeping and learning rates of the loop *)

Module Loop.
#[local] Open Scope Q_scope.

(** [params["regularization_weight"]]: a float or a list of floats. *)
Inductive weight_cfg := WScalar (w : Q) | WList (ws : list Q).

Record LossTriple := mkLoss {
  loss : Q; data_term : Q; regularization_term : Q }.

(** [Reconstructor._compute_loss], after the loss function has produced
    the data term and the unweighted regularisation [reg_loss]. A list
    weight is replaced in [params] by its first entry ([IndexError] when
    empty). Returns the updated weight entry and the three terms. *)
Definition _compute_loss (regularization_weight : weight_cfg)
    (data_term reg_loss : Q) : option (weight_cfg * LossTriple) :=
  w ← match regularization_weight with
      | WList ws => head ws
      | WScalar w => Some w
      end;
  let regularization_term := w * reg_loss in
  let loss := data_term + regularization_term in
  Some (WScalar w, mkLoss loss data_term regularization_term).

Record Results := mkResults {
  loss_total_list : list Q;
  loss_data_term_list : list Q;
  loss_reg_term_list : list Q;
  adjusted_lrs_list : list (list Q) }.

Definition no_results : Results := mkResults [] [] [] [].

(** [Reconstructor.store_results] (the predicted images are not kept here). *)
Definition store_results (res : Results) (l : LossTriple)
    (adjusted_lrs : list Q) : Results :=
  {| loss_total_list := loss_total_list res ++ [loss l];
     loss_data_term_list := loss_data_term_list res ++ [data_term l];
     loss_reg_term_list := loss_reg_term_list res ++ [regularization_term l];
     adjusted_lrs_list := adjusted_lrs_list res ++ [adjusted_lrs] |}.

(** What the collaborators return during one epoch: the loss function's two
    values, the effect of [optimizer.step(); scheduler.step(loss)] on the
    learning rates of the parameter groups, and [calculate_adjusted_lr]. *)
Record EpochExt := mkExt {
  ext_data_term : Q;
  ext_reg_loss : Q;
  ext_scheduler : list Q -> list Q;
  ext_adjusted_lrs : list Q }.

Record Recon := mkRecon {
  nerf_mode : bool;
  intensity_bool : bool;
  regularization_weight : weight_cfg;
  results : Results;
  param_groups_lr : list Q }.

(** [Reconstructor.one_iteration], its scalar part: loss, scheduler,
    recorded lists. Both branches on [intensity_bool] append the same
    four values. *)
Definition one_iteration (ext : EpochExt) (r : Recon) : option Recon :=
  '(w, l) ← _compute_loss (regularization_weight r)
              (ext_data_term ext) (ext_reg_loss ext);
  let lrs := ext_scheduler ext (param_groups_lr r) in
  let adjusted_lrs := if nerf_mode r then [0] else ext_adjusted_lrs ext in
  let res :=
    if intensity_bool r then
      {| loss_total_list := loss_total_list (results r) ++ [loss l];
         loss_data_term_list := loss_data_term_list (results r) ++ [data_term l];
         loss_reg_term_list :=
           loss_reg_term_list (results r) ++ [regularization_term l];
         adjusted_lrs_list := adjusted_lrs_list (results r) ++ [adjusted_lrs] |}
    else store_results (results r) l adjusted_lrs in
  Some {| nerf_mode := nerf_mode r;
          intensity_bool := intensity_bool r;
          regularization_weight := w;
          results := res;
          param_groups_lr := lrs |}.

(** *** Learning-rate warmup in [reconstruct] *)

Definition warmup_epochs : nat := 10.
Definition warmup_start_proportion : Q := 1 # 10.

Definition Qnat (n : nat) : Q := inject_Z (Z.of_nat n).

(** [warmup_start_proportion + (1 - warmup_start_proportion) * (ep / warmup_epochs)]. *)
Definition warmup_factor (ep : nat) : Q :=
  warmup_start_proportion
  + (1 - warmup_start_proportion) * (Qnat ep / Qnat warmup_epochs).

(** [optimizer.param_groups[i]["lr"] = v] ([IndexError] without group i). *)
Definition set_lr (i : nat) (v : Q) (groups : list Q) : option (list Q) :=
  if decide (i < length groups)%nat then Some (<[i:=v]> groups) else None.

(** The locals [lr_0], [lr_1] of [reconstruct]; unbound before epoch 1. *)
Record LrVars := mkLrVars { lr_0 : option Q; lr_1 : option Q }.

(** The first half of the loop body: the branch on [ep < warmup_epochs]. *)
Definition adjust_lr (initial_lr_0 initial_lr_1 : Q) (ep : nat)
    (vars : LrVars) (r : Recon) : option (LrVars * Recon) :=
  let with_lrs g := {| nerf_mode := nerf_mode r;
                       intensity_bool := intensity_bool r;
                       regularization_weight := regularization_weight r;
                       results := results r;
                       param_groups_lr := g |} in
  if (ep <? warmup_epochs)%nat then
    let lr0 := initial_lr_0 * warmup_factor ep in
    let lr1 := initial_lr_1 * warmup_factor ep in
    g ← set_lr 0 lr0 (param_groups_lr r);
    g ← (if nerf_mode r then Some g else set_lr 1 lr1 g);
    Some (mkLrVars (Some lr0) (Some lr1), with_lrs g)
  else
    current_lr_0 ← param_groups_lr r !! 0%nat;
    current_lr_1 ← (if nerf_mode r then lr_0 vars
                    else param_groups_lr r !! 1%nat);
    Some (mkLrVars (Some current_lr_0) (Some current_lr_1), r).

(** Epochs [ep], [ep+1], ... of the loop, one collaborator record each. *)
Fixpoint epochs (initial_lr_0 initial_lr_1 : Q) (ep : nat)
    (exts : list EpochExt) (vars : LrVars) (r : Recon)
  : option (LrVars * Recon) :=
  match exts with
  | [] => Some (vars, r)
  | ext :: exts' =>
      '(vars, r) ← adjust_lr initial_lr_0 initial_lr_1 ep vars r;
      r ← one_iteration ext r;
      epochs initial_lr_0 initial_lr_1 (S ep) exts' vars r
  end.

(** [initial_lr_0], [initial_lr_1] as read before the loop. *)
Definition initial_lrs (r : Recon) : option (Q * Q) :=
  lr0 ← param_groups_lr r !! 0%nat;
  lr1 ← (if nerf_mode r then param_groups_lr r !! 0%nat
         else param_groups_lr r !! 1%nat);
  Some (lr0, lr1).

(** [Reconstructor.reconstruct], scalar part, for [n_epochs = length exts]. *)
Definition reconstruct (exts : list EpochExt) (r : Recon) : option Recon :=
  '(lr0, lr1) ← initial_lrs r;
  '(_, r) ← epochs lr0 lr1 1 exts (mkLrVars None None) r;
  Some r.

(** The learning rates the optimizer holds when [one_iteration] of epoch
    [ep] starts: run epochs 1..ep-1, then the warmup branch of epoch [ep]. *)
Definition lrs_in_epoch (ep : nat) (exts : list EpochExt) (r : Recon)
  : option (list Q) :=
  '(lr0, lr1) ← initial_lrs r;
  '(vars, r) ← epochs lr0 lr1 1 (take (ep - 1) exts) (mkLrVars None None) r;
  '(_, r) ← adjust_lr lr0 lr1 ep vars r;
  Some (param_groups_lr r).

(** A scheduler that leaves the learning rates alone (no plateau yet). *)
Definition quiet (data reg : Q) : EpochExt := mkExt data reg (fun lrs => lrs) [0; 0].

Definition recon0 (w : weight_cfg) (lrs : list Q) : Recon :=
  mkRecon false false w no_results lrs.

(** What one epoch appends to the total and to the regularisation list
    under weight [w]. *)
Definition recorded_total (w : Q) (e : EpochExt) : Q :=
  ext_data_term e + w * ext_reg_loss e.
Definition recorded_reg (w : Q) (e : EpochExt) : Q := w * ext_reg_loss e.

(** The configured weight: the float, or the first entry of the list. *)
Definition configured_weight (w : weight_cfg) : option Q :=
  match w with WList ws => head ws | WScalar w => Some w end.

(** The identity of the specification on the recorded lists, up to [tol]:
    total = data term + weight * recorded regularisation term. *)
Definition total_is_data_plus_weighted_record (tol w : Q) (res : Results)
  : Prop :=
  forall k t d g,
    loss_total_list res !! k = Some t ->
    loss_data_term_list res !! k = Some d ->
    loss_reg_term_list res !! k = Some g ->
    Qabs (t - (d + w * g)) <= tol.

(** The first half of the warmup sentence of the specification: in epoch 1
    every group runs at a tenth of its initial rate. *)
Definition epoch_1_at_start_proportion (exts : list EpochExt) (r : Recon)
  : Prop :=
  forall i0 i1, initial_lrs r = Some (i0, i1) ->
    exists a b, lrs_in_epoch 1 exts r = Some [a; b] /\
                a == i0 * warmup_start_proportion /\
                b == i1 * warmup_start_proportion.

(** What the loop needs of a reconstructor with two parameter groups. *)
Definition two_groups (r : Recon) : Prop :=
  nerf_mode r = false /\ length (param_groups_lr r) = 2%nat /\
  is_Some (configured_weight (regularization_weight r)).

(** Schedulers keep the number of parameter groups. *)
Definition keeps_groups (ext : EpochExt) : Prop :=
  forall g, length (ext_scheduler ext g) = length g.

End Loop.

(** ** Construction of a [Reconstructor] *)

Module Init.
Import Torch Vol.
#[local] Open Scope Q_scope.

(** Values of the [iteration_params] dictionary (loaded from JSON). *)
#[local] Set Warnings "-register-all".
Inductive pyval :=
| PNone
| PBool (b : bool)
| PInt (z : Z)
| PFloat (q : Q)
| PStr (s : string)
| PList (l : list pyval).

(** Python truth value. *)
Definition truthy (v : pyval) : bool :=
  match v with
  | PNone => false
  | PBool b => b
  | PInt z => negb (z =? 0)%Z
  | PFloat q => negb (Qeq_bool q 0)
  | PStr s => match s with EmptyString => false | _ => true end
  | PList l => match l with [] => false | _ => true end
  end.

(** [d.get(key, default)]. *)
Definition get (d : gmap string pyval) (key : string) (dflt : pyval) : pyval :=
  default dflt (d !! key).

Inductive Exn :=
| ValueError (msg : string)
| IndexError
| AttributeError
| RuntimeError
| CollaboratorError (msg : string).

Definition bind {A B} (m : Exn + A) (f : A -> Exn + B) : Exn + B :=
  match m with inl e => inl e | inr a => f a end.

Notation "'let*' x ':=' m 'in' k" := (bind m (fun x => k))
  (at level 10, x name, m at level 100, k at level 200, only parsing).

(** The ray tracer, as far as construction looks at it. *)
Record Rays := mkRays {
  MLA_volume_geometry_ready : bool;
  rays_mask : option (list bool) }.

(** The collaborators called during construction. Loading or tracing the
    rays, preparing all rays at once (with the radiometry filter), and the
    two ways of listing the voxels to keep; each may raise. *)
Record Collaborators := mkCollab {
  setup_raytracer : Exn + Rays;
  prepare_for_all_rays_at_once : Rays -> Exn + Rays;
  filter_voxels_using_retardance : Rays -> Exn + list nat;
  sorted_vox_list : Rays -> bool -> Exn + list nat }.

Record Reconstructor := mkReconstructor {
  rays : Rays;
  from_simulation : bool;
  apply_volume_mask : bool;
  mask : list bool;
  volume_pred : Volume Q;
  remove_large_arrs : bool;
  two_optic_axis_components : bool;
  mla_rays_at_once : bool;
  intensity_bool : bool;
  loss_total_list : list Q;
  loss_data_term_list : list Q;
  loss_reg_term_list : list Q;
  adjusted_lrs_list : list (list Q) }.

(** [mask = torch.zeros(n, dtype=bool); mask[voxels] = True]. *)
Definition mask_of_voxels (n : nat) (voxels : list nat) : Exn + list bool :=
  match index_put (full n false) voxels (full (length voxels) true) with
  | Some m => inr m
  | None => inl IndexError
  end.

(** [Reconstructor.voxel_mask_setup]: the new mask, also stored on the rays. *)
Definition voxel_mask_setup (c : Collaborators) (rays : Rays)
    (from_simulation : bool) (volume_pred : Volume Q)
  : Exn + (list bool * Rays) :=
  let num_vox_in_volume := length (data (Delta_n volume_pred)) in
  let* voxels :=
    (if MLA_volume_geometry_ready rays
     then filter_voxels_using_retardance c rays
     else sorted_vox_list c rays from_simulation) in
  let* mask := mask_of_voxels num_vox_in_volume voxels in
  inr (mask, mkRays (MLA_volume_geometry_ready rays) (Some mask)).

(** [a * mask] with the boolean mask cast to 0/1, under broadcasting of
    one-dimensional tensors. *)
Definition mul_mask (a : list Q) (mask : list bool) : Exn + list Q :=
  let cast (b : bool) : Q := if b then 1 else 0 in
  if decide (length a = length mask) then
    inr (zip_with (fun x b => x * cast b) a mask)
  else match a, mask with
       | _, [b] => inr (map (fun x => x * cast b) a)
       | [x], _ => inr (map (fun b => x * cast b) mask)
       | _, _ => inl RuntimeError
       end.

(** [Reconstructor.apply_mask_to_volume]. *)
Definition apply_mask_to_volume (mask : list bool) (volume : Volume Q)
  : Exn + Volume Q :=
  let* d := mul_mask (data (Delta_n volume)) mask in
  inr {| Delta_n := nn_Parameter d;
         optic_axis := optic_axis volume;
         indices_active := indices_active volume;
         active_idx2spatial_idx_tensor := active_idx2spatial_idx_tensor volume;
         optic_axis_active := optic_axis_active volume;
         optic_axis_planar := optic_axis_planar volume;
         birefringence_active := birefringence_active volume |}.

Definition is_space (c : ascii) : bool :=
  existsb (Ascii.eqb c)
    [" "; "009"; "010"; "011"; "012"; "013"; "028"; "029"; "030"; "031"]%char.

Fixpoint take_word (s : string) : string :=
  match s with
  | EmptyString => EmptyString
  | String c r => if is_space c then EmptyString else String c (take_word r)
  end.

(** [s.split()[0]]: [IndexError] when [s] holds no word. *)
Fixpoint first_word (s : string) : option string :=
  match s with
  | EmptyString => None
  | String c r => if is_space c then first_word r
                  else Some (String c (take_word r))
  end.

Definition cannot_remove_and_mask : string :=
  "Cannot remove large arrays and apply mask tovolume gradient at the same time.".

(** [Reconstructor.__init__]. Plotting, timing and the choice of the output
    directory are left out; [initial_volume] is [recon_info.initial_volume]
    and [iteration_params] is [recon_info.interation_parameters]. *)
Definition init (c : Collaborators) (initial_volume : Volume Q)
    (iteration_params : gmap string pyval) (apply_volume_mask : bool)
  : Exn + Reconstructor :=
  let* rays := setup_raytracer c in
  let from_simulation := truthy (get iteration_params "from_simulation" (PBool false)) in
  let mask := full (length (data (Delta_n initial_volume))) true in
  let volume_pred := initial_volume in
  let remove_large_arrs :=
    truthy (get iteration_params "free_memory_by_del_large_arrays" (PBool false)) in
  if remove_large_arrs && apply_volume_mask then
    inl (ValueError cannot_remove_and_mask)
  else
    let two_optic_axis_components :=
      truthy (get iteration_params "two_optic_axis_components" (PBool false)) in
    let mla_rays_at_once :=
      truthy (get iteration_params "mla_rays_at_once" (PBool false)) in
    let* rays :=
      (if mla_rays_at_once && negb (MLA_volume_geometry_ready rays)
       then prepare_for_all_rays_at_once c rays else inr rays) in
    let* mr :=
      (match rays_mask rays with
       | Some m => inr (m, rays)
       | None => voxel_mask_setup c rays from_simulation volume_pred
       end) in
    let mask := fst mr in
    let rays := snd mr in
    let* volume_pred := apply_mask_to_volume mask volume_pred in
    let* datafidelity_method :=
      (match get iteration_params "datafidelity" (PStr "vector") with
       | PStr s => inr s
       | _ => inl AttributeError
       end) in
    let* first :=
      (match first_word datafidelity_method with
       | Some w => inr w
       | None => inl IndexError
       end) in
    inr {| rays := rays;
           from_simulation := from_simulation;
           apply_volume_mask := apply_volume_mask;
           mask := mask;
           volume_pred := volume_pred;
           remove_large_arrs := remove_large_arrs;
           two_optic_axis_components := two_optic_axis_components;
           mla_rays_at_once := mla_rays_at_once;
           intensity_bool := String.eqb first "intensity";
           loss_total_list := [];
           loss_data_term_list := [];
           loss_reg_term_list := [];
           adjusted_lrs_list := [] |}.

(** A small set-up used to run [init]: rays that carry no mask yet, and a
    voxel filter that keeps voxels 1 and 3. *)
Definition demo_collab : Collaborators :=
  mkCollab (inr (mkRays true None)) (fun r => inr r)
           (fun _ => inr [1; 3]%nat) (fun _ _ => inr [1; 3]%nat).

Definition demo_volume : Volume Q :=
  {| Delta_n := mkTensor [5; 6; 7; 8] true;
     optic_axis := mkTensor (replicate 4 (mkVec3 1 0 0)) true;
     indices_active := None;
     active_idx2spatial_idx_tensor := None;
     optic_axis_active := None;
     optic_axis_planar := None;
     birefringence_active := None |}.

Definition demo_params_both : gmap string pyval :=
  {[ "free_memory_by_del_large_arrays"%string := PBool true ]}.

End Init.

(** ** Construction on floating-point birefringence *)

(** [Reconstructor.__init__] once more, with a birefringence that may hold
    infinities and NaN, as a float tensor can. The dictionary, the
    exceptions, the rays and the collaborators are those of [Init]. *)
Module InitFloat.
Import Torch Vol Floats.
Import Init.
#[local] Open Scope Q_scope.

(** [x * b] with the boolean cast to 1.0 or 0.0: an infinity times 0 is
    NaN, and NaN stays NaN. *)
Definition fmul_bool (x : fval Q) (b : bool) : fval Q :=
  match x with
  | Fin q => Fin (q * (if b then 1 else 0))
  | Inf negative => if b then Inf negative else NaN
  | NaN => NaN
  end.

Record Reconstructor := mkReconstructor {
  rays : Rays;
  from_simulation : bool;
  apply_volume_mask : bool;
  mask : list bool;
  volume_pred : Volume (fval Q);
  remove_large_arrs : bool;
  two_optic_axis_components : bool;
  mla_rays_at_once : bool;
  intensity_bool : bool;
  loss_total_list : list Q;
  loss_data_term_list : list Q;
  loss_reg_term_list : list Q;
  adjusted_lrs_list : list (list Q) }.

(** [Reconstructor.voxel_mask_setup]: the new mask, also stored on the rays. *)
Definition voxel_mask_setup (c : Collaborators) (rays : Rays)
    (from_simulation : bool) (volume_pred : Volume (fval Q))
  : Exn + (list bool * Rays) :=
  let num_vox_in_volume := length (data (Delta_n volume_pred)) in
  let* voxels :=
    (if MLA_volume_geometry_ready rays
     then filter_voxels_using_retardance c rays
     else sorted_vox_list c rays from_simulation) in
  let* mask := mask_of_voxels num_vox_in_volume voxels in
  inr (mask, mkRays (MLA_volume_geometry_ready rays) (Some mask)).

(** [a * mask] under broadcasting of one-dimensional tensors. *)
Definition mul_mask (a : list (fval Q)) (mask : list bool)
  : Exn + list (fval Q) :=
  if decide (length a = length mask) then
    inr (zip_with fmul_bool a mask)
  else match a, mask with
       | _, [b] => inr (map (fun x => fmul_bool x b) a)
       | [x], _ => inr (map (fun b => fmul_bool x b) mask)
       | _, _ => inl RuntimeError
       end.

(** [Reconstructor.apply_mask_to_volume]. *)
Definition apply_mask_to_volume (mask : list bool) (volume : Volume (fval Q))
  : Exn + Volume (fval Q) :=
  let* d := mul_mask (data (Delta_n volume)) mask in
  inr {| Delta_n := nn_Parameter d;
         optic_axis := optic_axis volume;
         indices_active := indices_active volume;
         active_idx2spatial_idx_tensor := active_idx2spatial_idx_tensor volume;
         optic_axis_active := optic_axis_active volume;
         optic_axis_planar := optic_axis_planar volume;
         birefringence_active := birefringence_active volume |}.

(** [Reconstructor.__init__]. Plotting, timing and the choice of the output
    directory are left out; [initial_volume] is [recon_info.initial_volume]
    and [iteration_params] is [recon_info.interation_parameters]. *)
Definition init (c : Collaborators) (initial_volume : Volume (fval Q))
    (iteration_params : gmap string pyval) (apply_volume_mask : bool)
  : Exn + Reconstructor :=
  let* rays := setup_raytracer c in
  let from_simulation := truthy (get iteration_params "from_simulation" (PBool false)) in
  let mask := full (length (data (Delta_n initial_volume))) true in
  let volume_pred := initial_volume in
  let remove_large_arrs :=
    truthy (get iteration_params "free_memory_by_del_large_arrays" (PBool false)) in
  if remove_large_arrs && apply_volume_mask then
    inl (ValueError cannot_remove_and_mask)
  else
    let two_optic_axis_components :=
      truthy (get iteration_params "two_optic_axis_components" (PBool false)) in
    let mla_rays_at_once :=
      truthy (get iteration_params "mla_rays_at_once" (PBool false)) in
    let* rays :=
      (if mla_rays_at_once && negb (MLA_volume_geometry_ready rays)
       then prepare_for_all_rays_at_once c rays else inr rays) in
    let* mr :=
      (match rays_mask rays with
       | Some m => inr (m, rays)
       | None => voxel_mask_setup c rays from_simulation volume_pred
       end) in
    let mask := fst mr in
    let rays := snd mr in
    let* volume_pred := apply_mask_to_volume mask volume_pred in
    let* datafidelity_method :=
      (match get iteration_params "datafidelity" (PStr "vector") with
       | PStr s => inr s
       | _ => inl AttributeError
       end) in
    let* first :=
      (match first_word datafidelity_method with
       | Some w => inr w
       | None => inl IndexError
       end) in
    inr {| rays := rays;
           from_simulation := from_simulation;
           apply_volume_mask := apply_volume_mask;
           mask := mask;
           volume_pred := volume_pred;
           remove_large_arrs := remove_large_arrs;
           two_optic_axis_components := two_optic_axis_components;
           mla_rays_at_once := mla_rays_at_once;
           intensity_bool := String.eqb first "intensity";
           loss_total_list := [];
           loss_data_term_list := [];
           loss_reg_term_list := [];
           adjusted_lrs_list := [] |}.

(** The implicit property as it is worded: what the working volume holds
    at a voxel with mask entry [False] is zero. *)
Definition zero_outside_mask (r : Reconstructor) : Prop :=
  forall i x,
    mask r !! i = Some false ->
    data (Delta_n (volume_pred r)) !! i = Some x ->
    feq0 x = true.

(** The same for every construction that completes. *)
Definition zeroes_outside_mask (c : Collaborators)
    (initial_volume : Volume (fval Q)) (iteration_params : gmap string pyval)
    (apply_volume_mask : bool) : Prop :=
  forall r,
    init c initial_volume iteration_params apply_volume_mask = inr r ->
    zero_outside_mask r.

(** Four voxels with finite birefringence, and the same with an infinite
    initial guess at voxel 0; [demo_collab] keeps voxels 1 and 3. *)
Definition finite_volume : Volume (fval Q) :=
  {| Delta_n := mkTensor [Fin 5; Fin 6; Fin 7; Fin 8] true;
     optic_axis := mkTensor (replicate 4 (mkVec3 (Fin 1) (Fin 0) (Fin 0))) true;
     indices_active := None;
     active_idx2spatial_idx_tensor := None;
     optic_axis_active := None;
     optic_axis_planar := None;
     birefringence_active := None |}.

Definition infinite_at_0 : Volume (fval Q) :=
  {| Delta_n := mkTensor [Inf false; Fin 6; Fin 7; Fin 8] true;
     optic_axis := mkTensor (replicate 4 (mkVec3 (Fin 1) (Fin 0) (Fin 0))) true;
     indices_active := None;
     active_idx2spatial_idx_tensor := None;
     optic_axis_active := None;
     optic_axis_planar := None;
     birefringence_active := None |}.

End InitFloat.

(** ** The polarimetric loss of [metrics/metric.py] *)

Module Metric.
#[local] Open Scope R_scope.

(** An elementwise binary operation on two images of one shape. *)
Definition elementwise (f : R -> R -> R) (a b : list R) : option (list R) :=
  if decide (length a = length b) then Some (zip_with f a b) else None.

Definition tensor_sum (l : list R) : R := foldr Rplus 0 l.

(** [F.mse_loss(input, target)] with the default mean reduction. *)
Definition mse_loss (input target : list R) : option R :=
  d ← elementwise (fun x y => (x - y) * (x - y)) input target;
  Some (tensor_sum d / INR (length d)).

Record PolarimetricLossFunction := mkLossFcn {
  weight_retardance : R;
  weight_orientation : R;
  weight_datafidelity : R;
  weight_regularization : R;
  target_retardance : option (list R);
  target_orientation : option (list R) }.

Definition set_retardance_target (self : PolarimetricLossFunction)
    (target : list R) : PolarimetricLossFunction :=
  {| weight_retardance := weight_retardance self;
     weight_orientation := weight_orientation self;
     weight_datafidelity := weight_datafidelity self;
     weight_regularization := weight_regularization self;
     target_retardance := Some target;
     target_orientation := target_orientation self |}.

Definition set_orientation_target (self : PolarimetricLossFunction)
    (target : list R) : PolarimetricLossFunction :=
  {| weight_retardance := weight_retardance self;
     weight_orientation := weight_orientation self;
     weight_datafidelity := weight_datafidelity self;
     weight_regularization := weight_regularization self;
     target_retardance := target_retardance self;
     target_orientation := Some target |}.

(** [transform_ret_azim_to_vector_form]. *)
Definition transform_ret_azim_to_vector_form (ret azim : list R)
  : option (list R * list R) :=
  cosine_term ← elementwise (fun r a => r * cos (2 * a)) ret azim;
  sine_term ← elementwise (fun r a => r * sin (2 * a)) ret azim;
  Some (cosine_term, sine_term).

(** [vector_loss]. *)
Definition vector_loss (self : PolarimetricLossFunction)
    (ret_pred azim_pred : list R) : option R :=
  ret_gt ← target_retardance self;
  azim_gt ← target_orientation self;
  gt ← transform_ret_azim_to_vector_form ret_gt azim_gt;
  pred ← transform_ret_azim_to_vector_form ret_pred azim_pred;
  loss_cos ← mse_loss (fst pred) (fst gt);
  loss_sin ← mse_loss (snd pred) (snd gt);
  Some (loss_cos + loss_sin).

(** [compute_datafidelity_term]; the other branch multiplies a weight with
    the [None] that [compute_retardance_loss] returns and so raises. *)
Definition compute_datafidelity_term (self : PolarimetricLossFunction)
    (ret_pred azim_pred : list R) (method : string) : option R :=
  if String.eqb method "vector" then vector_loss self ret_pred azim_pred
  else None.

(** Every azimuth of an image moved by half a turn. *)
Definition shift_pi (azim : list R) : list R := map (fun a => a + PI) azim.

End Metric.

(** ** The unit-sphere constraint on the optic axis *)

Module Sphere.
Import Torch Vol Floats.
#[local] Open Scope R_scope.

Definition norm (v : Vec3 R) : R :=
  sqrt (c0 v * c0 v + c1 v * c1 v + c2 v * c2 v).

Definition scale (k : R) (v : Vec3 R) : Vec3 R :=
  mkVec3 (k * c0 v) (k * c1 v) (k * c2 v).


Section Branch.
(** The branch of the square root, "fixed by convention, not learned". *)
Variable negative_branch : bool.








End Branch.

(** The vectors the loop optimises: the active ones once the active set
    exists, the full grid otherwise. *)
Definition constrained_axes (volume : Volume R) : option (list (Vec3 R)) :=
  match indices_active volume with
  | Some _ => data <$> optic_axis_active volume
  | None => Some (data (optic_axis volume))
  end.


(** The attributes [create_parameters_from_mask] leaves on a volume: an
    active set, and in two-component mode the planar view on rows 1 and 2. *)
Definition active_set_ready (two_optic_axis_components : bool)
    (volume : Volume R) : Prop :=
  indices_active volume <> None /\
  (two_optic_axis_components = true ->
   exists g, optic_axis_planar volume = Some (mkRowView 1 g)).








(** *** [replace_nans] *)

Definition eps_normalize : R := / 1000000000000.

(** [torch.nn.functional.normalize(x, p=2, dim=0)], one column:
    [x / max(norm(x), 1e-12)]. *)
Definition normalize (v : Vec3 R) : Vec3 R :=
  scale (/ Rmax (norm v) eps_normalize) v.

Definition lift (v : Vec3 R) : Vec3 (fval R) :=
  mkVec3 (Fin (c0 v)) (Fin (c1 v)) (Fin (c2 v)).

(** [t[:, mask] = vals]: the k-th selected column receives the k-th value. *)
Fixpoint masked_assign {A} (t : list A) (mask : list bool) (vals : list A)
  : list A :=
  match t, mask with
  | x :: t', b :: mask' =>
      if b then
        match vals with
        | v :: vals' => v :: masked_assign t' mask' vals'
        | [] => x :: masked_assign t' mask' []
        end
      else x :: masked_assign t' mask' vals
  | _, _ => t
  end.

(** [Reconstructor.replace_nans]. [rand k] is column k of
    [torch.rand(3, num_nan_vecs)]; the second result is the number the
    message reports when it is printed. *)
Definition replace_nans (rand : nat -> Vec3 R) (volume : Volume (fval R))
    (ep : nat) : Volume (fval R) * option nat :=
  let nan_mask := map (fun v => isnan (c0 v)) (data (optic_axis volume)) in
  let num_nan_vecs := count_true nan_mask in
  if (0 <? num_nan_vecs)%nat then
    let replacement_vecs :=
      map (fun k => lift (normalize (rand k))) (seq 0 num_nan_vecs) in
    ({| Delta_n := Delta_n volume;
        optic_axis :=
          mkTensor (masked_assign (data (optic_axis volume)) nan_mask
                      replacement_vecs)
                   (requires_grad (optic_axis volume));
        indices_active := indices_active volume;
        active_idx2spatial_idx_tensor := active_idx2spatial_idx_tensor volume;
        optic_axis_active := optic_axis_active volume;
        optic_axis_planar := optic_axis_planar volume;
        birefringence_active := birefringence_active volume |},
     if (ep =? 0)%nat then Some num_nan_vecs else None)
  else (volume, None).

Definition vec_finite (v : Vec3 (fval R)) : bool :=
  isfinite (c0 v) && isfinite (c1 v) && isfinite (c2 v).

(** A finite vector of norm one. *)
Definition unit_vector (v : Vec3 (fval R)) : Prop :=
  exists u : Vec3 R, v = lift u /\ norm u = 1.

(** The recovery the specification describes, for one call: afterwards
    every vector that was not finite is a finite unit vector. *)
Definition recovers_non_finite (rand : nat -> Vec3 R)
    (volume : Volume (fval R)) (ep : nat) : Prop :=
  forall i v v',
    data (optic_axis volume) !! i = Some v ->
    vec_finite v = false ->
    data (optic_axis (fst (replace_nans rand volume ep))) !! i = Some v' ->
    unit_vector v'.

Definition volume_of_axes {F} (axes : list (Vec3 F)) : Volume F :=
  {| Delta_n := mkTensor [] false;
     optic_axis := mkTensor axes false;
     indices_active := None;
     active_idx2spatial_idx_tensor := None;
     optic_axis_active := None;
     optic_axis_planar := None;
     birefringence_active := None |}.

(** One vector whose only defect is a NaN in row 1. *)
Definition nan_in_row_1 : Volume (fval R) :=
  volume_of_axes [mkVec3 (Fin 0) NaN (Fin 0)].

(** A NaN vector between two sound ones, and a sampler that always
    returns (1, 0, 0). *)
Definition nan_in_the_middle : Volume (fval R) :=
  volume_of_axes [mkVec3 (Fin 1) (Fin 0) (Fin 0);
                  mkVec3 NaN NaN NaN;
                  mkVec3 (Fin 0) (Fin 1) (Fin 0)].

Definition sample_e0 (k : nat) : Vec3 R := mkVec3 1 0 0.

End Sphere.

(** ** Scattering the active parameters back into the grid *)

Module Checkpoint.
Import Torch Vol.

Section Scatter.
Context {F : Type}.
Variable zero : F.

(** [t[idx] = vals] as torch does it: a single value is broadcast over the
    selected positions, otherwise the shapes must agree. *)
Definition index_assign {A} (t : list A) (idx : list nat) (vals : list A)
  : option (list A) :=
  match vals with
  | [v] => index_put t idx (replicate (length idx) v)
  | _ => index_put t idx vals
  end.

Definition with_grid (volume : Volume F) (d : Tensor F)
    (ax : Tensor (Vec3 F)) : Volume F :=
  {| Delta_n := d;
     optic_axis := ax;
     indices_active := indices_active volume;
     active_idx2spatial_idx_tensor := active_idx2spatial_idx_tensor volume;
     optic_axis_active := optic_axis_active volume;
     optic_axis_planar := optic_axis_planar volume;
     birefringence_active := birefringence_active volume |}.

(** [ep % save_freq == 0] for an integer [save_freq]: Python's remainder
    takes the sign of the divisor, and a zero divisor raises. *)
Definition at_save_freq (save_freq : Z) (ep : nat) : option bool :=
  if (save_freq =? 0)%Z then None
  else Some (Z.of_nat ep mod save_freq =? 0)%Z.

(** The first step of [visualize_and_save]: the birefringence grid, rebuilt
    from zeros in the memory-saving mode (on the device of the active
    birefringence, which must exist), receives the active values. *)
Definition sync_birefringence (remove_large_arrs : bool) (vol_size : nat)
    (volume : Volume F) : option (Tensor F) :=
  base ← (if remove_large_arrs
          then _ ← birefringence_active volume;
               Some (mkTensor (full vol_size zero) false)
          else Some (Delta_n volume));
  match indices_active volume with
  | Some idx =>
      bir ← birefringence_active volume;
      d ← index_assign (data base) idx (data bir);
      Some (mkTensor d (requires_grad base))
  | None => Some base
  end.

(** The same for the optic axis, as done in a saving epoch. *)
Definition sync_optic_axis (remove_large_arrs : bool) (vol_size_flat : nat)
    (volume : Volume F) : option (Tensor (Vec3 F)) :=
  base ← (if remove_large_arrs
          then _ ← optic_axis_active volume;
               Some (mkTensor (full vol_size_flat (mkVec3 zero zero zero))
                              false)
          else Some (optic_axis volume));
  match indices_active volume with
  | Some idx =>
      act ← optic_axis_active volume;
      d ← index_assign (data base) idx (data act);
      Some (mkTensor d (requires_grad base))
  | None => Some base
  end.

(** [Reconstructor.visualize_and_save] outside nerf mode, as far as the
    volume goes: the volume it leaves and, in a saving epoch, the volume it
    hands to [save_as_file]. Plotting and the two CSV files are left out.
    In the memory-saving mode the code deletes the two grids again at the
    end; they are rebuilt from zeros before every later use, so the record
    simply keeps them. *)
Definition visualize_and_save (remove_large_arrs : bool) (vol_size : nat)
    (save_freq : Z) (ep : nat) (volume : Volume F)
  : option (Volume F * option (Volume F)) :=
  d ← sync_birefringence remove_large_arrs vol_size volume;
  save ← at_save_freq save_freq ep;
  if (save : bool) then
    ax ← sync_optic_axis remove_large_arrs (length (data d)) volume;
    let saved := with_grid volume d ax in
    Some (saved, Some saved)
  else Some (with_grid volume d (optic_axis volume), None).

End Scatter.

(** The ramp volume of 10 voxels with voxels 1, 4 and 7 active. *)
Definition ramp_active : Volume Z :=
  default (ramp_volume 10)
          (create_parameters_from_mask false (ramp_volume 10) mask_1_4_7).

End Checkpoint.

(** ** The variables to learn and the optimizer *)

Module Optim.
Import Init.

(** [Reconstructor.specify_variables_to_learn], on the list
    [volume.members_to_learn]; [None] stands for the default argument. *)
Definition specify_variables_to_learn (members_to_learn : list string)
    (learning_vars : option (list string)) : list string :=
  let learning_vars :=
    match learning_vars with
    | None => ["Delta_n"; "optic_axis"]%string
    | Some l => l
    end in
  foldl (fun members var =>
           if decide (var ∈ members) then members else members ++ [var])
        members_to_learn learning_vars.

Inductive Err :=
| AssertionError (msg : string)
| KeyError (key : string)
| IndexError
| TypeError
| LBFGS_not_supported
| Unsupported_optimizer (optimizer_type : pyval).

Definition ebind {A B} (m : Err + A) (f : A -> Err + B) : Err + B :=
  match m with inl e => inl e | inr a => f a end.

Notation "'try*' x ':=' m 'in' k" := (ebind m (fun x => k))
  (at level 10, x name, m at level 100, k at level 200, only parsing).





Definition key (d : gmap string pyval) (k : string) : Err + pyval :=
  match d !! k with Some v => inr v | None => inl (KeyError k) end.




End Optim.

(** ** The loss file *)

Module Csv.
Import Loop.

Inductive cell :=
| CText (s : string)
| CNumber (q : Q)
| CList (l : list Q).

Definition loss_header : list cell :=
  [CText "Total Loss"; CText "Data Term Loss";
   CText "Regularization Term Loss"; CText "Optic Axis Learning Rate";
   CText "Birefringence Learning Rate"].

(** [zip] of the four lists: as long as the shortest. *)
Definition zipped_lists (res : Results) : list (Q * Q * Q * list Q) :=
  zip (zip (zip (loss_total_list res) (loss_data_term_list res))
           (loss_reg_term_list res))
      (adjusted_lrs_list res).

(** One turn of the loop that writes the rows: in nerf mode the learning
    rates go into one cell; otherwise they are unpacked into exactly two. *)
Definition loss_row (nerf_mode : bool) (entry : Q * Q * Q * list Q)
  : option (list cell) :=
  let '(total, data_term, reg_term, lr) := entry in
  if nerf_mode then
    Some [CNumber total; CNumber data_term; CNumber reg_term; CList lr]
  else
    match lr with
    | [optax_lr; bir_lr] =>
        Some [CNumber total; CNumber data_term; CNumber reg_term;
              CNumber optax_lr; CNumber bir_lr]
    | _ => None
    end.

(** The rows written before the first entry that cannot be unpacked, and
    whether the loop came to its end. *)
Fixpoint write_rows (nerf_mode : bool) (entries : list (Q * Q * Q * list Q))
  : list (list cell) * bool :=
  match entries with
  | [] => ([], true)
  | e :: rest =>
      match loss_row nerf_mode e with
      | Some row =>
          let '(rows, ok) := write_rows nerf_mode rest in (row :: rows, ok)
      | None => ([], false)
      end
  end.

(** [Reconstructor.save_loss_lists_to_csv]: the file is opened for writing,
    hence replaced; the result is its content, row by row, and whether the
    call returned without [ValueError]. *)
Definition save_loss_lists_to_csv (nerf_mode : bool) (res : Results)
  : list (list cell) * bool :=
  let '(rows, ok) := write_rows nerf_mode (zipped_lists res) in
  (loss_header :: rows, ok).

End Csv.

(** ** Regularisation and total loss of [metrics/metric.py] *)

Module Regularized.
Import Metric.
#[local] Open Scope R_scope.

Section Data.
(** What the regularisation functions are applied to. *)
Context {D : Type}.

(** The attributes [__init__] sets beyond the weights and targets;
    [regularization_fns] exists only when no JSON file is given. *)
Record LossFunction := mkLossFunction {
  core : PolarimetricLossFunction;
  regularization_fns : option (list ((D -> R) * R)) }.

(** [PolarimetricLossFunction.__init__]; the JSON file enters as the
    dictionary read from it. *)
Definition init_loss (json_file : option (gmap string R)) : LossFunction :=
  match json_file with
  | Some params =>
      {| core := mkLossFcn (default 1 (params !! "weight_retardance"))
                           (default 1 (params !! "weight_orientation"))
                           (default 1 (params !! "weight_datafidelity"))
                           (default (1 / 10)
                                    (params !! "weight_regularization"))
                           None None;
         regularization_fns := None |}
  | None =>
      {| core := mkLossFcn 1 1 1 (1 / 10) None None;
         regularization_fns := Some [] |}
  end.

Definition with_core (self : LossFunction) (c : PolarimetricLossFunction)
  : LossFunction :=
  {| core := c; regularization_fns := regularization_fns self |}.

(** [compute_regularization_term]. *)
Definition compute_regularization_term (self : LossFunction) (data : D)
  : option R :=
  fns ← regularization_fns self;
  Some (foldl (fun acc (fw : (D -> R) * R) => acc + snd fw * fst fw data)
              0 fns).

(** [compute_total_loss]. *)
Definition compute_total_loss (self : LossFunction)
    (pred_retardance pred_orientation : list R) (data : D) : option R :=
  datafidelity_loss ← compute_datafidelity_term (core self) pred_retardance
                        pred_orientation "vector";
  regularization_loss ← compute_regularization_term self data;
  Some (weight_datafidelity (core self) * datafidelity_loss
        + weight_regularization (core self) * regularization_loss).

End Data.
Arguments LossFunction : clear implicits.

End Regularized.

(** ** Schedulers that only lower the rates *)

Module Schedule.
Import Loop.
#[local] Open Scope Q_scope.

(** What [ReduceLROnPlateau] with [factor=0.5] can do to a rate: leave it
    or lower it. *)
Definition never_raises (ext : EpochExt) : Prop :=
  forall (g : list Q) (i : nat) (x y : Q),
    g !! i = Some x -> ext_scheduler ext g !! i = Some y -> y <= x.

(** The largest warmup factor, reached in epoch 9. *)
Definition warmup_peak : Q := 91 # 100.

(** Both rates are at most the peak factor times the initial ones. *)
Definition below_peak (lr0 lr1 : Q) (r : Recon) : Prop :=
  exists x y, param_groups_lr r = [x; y] /\
              x <= lr0 * warmup_peak /\ y <= lr1 * warmup_peak.

End Schedule.

(** ** The rows of a run *)

Module Rows.
Import Loop Csv.

(** What an epoch records as adjusted learning rates. *)
Definition recorded_lrs (nerf_mode : bool) (e : EpochExt) : list Q :=
  if nerf_mode then [0%Q] else ext_adjusted_lrs e.

(** The entry of the four lists that an epoch under weight [w] leaves. *)
Definition entry_of (nerf_mode : bool) (w : Q) (e : EpochExt)
  : Q * Q * Q * list Q :=
  (recorded_total w e, ext_data_term e, recorded_reg w e,
   recorded_lrs nerf_mode e).

End Rows.

(** ** The vector form, pixel by pixel *)

Module Pixelwise.
Import Metric.
#[local] Open Scope R_scope.

(** A loss function with both targets set. *)
Definition measured (self : PolarimetricLossFunction)
    (ret_gt azim_gt : list R) : PolarimetricLossFunction :=
  set_orientation_target (set_retardance_target self ret_gt) azim_gt.



End Pixelwise.

(** * Properties *)

(** ** The active parameter set *)

Section ActiveSet.
Import Torch Vol.

Lemma map_fmap {A B} (f : A -> B) (l : list A) : map f l = f <$> l.
Proof. induction l as [|x l IH]; simpl; [reflexivity | now rewrite IH]. Qed.

Lemma where_from_ge k mask i : i ∈ where_from k mask -> k <= i.
Proof.
  revert k. induction mask as [|b m IH]; intros k Hi; simpl in Hi.
  - inversion Hi.
  - destruct b.
    + apply elem_of_cons in Hi as [-> | Hi]; [lia |].
      apply IH in Hi. lia.
    + apply IH in Hi. lia.
Qed.

Lemma where_from_NoDup k mask : NoDup (where_from k mask).
Proof.
  revert k. induction mask as [|b m IH]; intros k; simpl.
  - constructor.
  - destruct b; [|apply IH].
    constructor; [|apply IH].
    intros Hk. apply where_from_ge in Hk. lia.
Qed.

Lemma where_from_elem k mask i :
  i ∈ where_from k mask <-> exists j, i = k + j /\ mask !! j = Some true.
Proof.
  revert k. induction mask as [|b m IH]; intros k; simpl.
  - split; [intros H; inversion H | intros (j & _ & H); discriminate].
  - assert (Hrec : i ∈ where_from (S k) m <->
                   exists j, i = k + S j /\ m !! j = Some true).
    { rewrite IH. split; intros (j & -> & Hj); exists j; split; auto; lia. }
    destruct b.
    + rewrite elem_of_cons, Hrec. split.
      * intros [-> | (j & -> & Hj)].
        -- exists 0. split; [lia | reflexivity].
        -- exists (S j). split; [reflexivity | exact Hj].
      * intros ([|j] & -> & Hj).
        -- left. lia.
        -- right. exists j. split; [reflexivity | exact Hj].
    + rewrite Hrec. split.
      * intros (j & -> & Hj). exists (S j). split; [reflexivity | exact Hj].
      * intros ([|j] & -> & Hj); [discriminate |].
        exists j. split; [reflexivity | exact Hj].
Qed.

Lemma where_from_ascending k mask a b i j :
  where_from k mask !! a = Some i -> where_from k mask !! b = Some j ->
  a < b -> i < j.
Proof.
  revert k a b. induction mask as [|x m IH]; intros k a b Ha Hb Hab; simpl in *.
  - discriminate.
  - destruct x; [|eapply IH; eauto].
    destruct b as [|b]; [lia |]. simpl in Hb.
    destruct a as [|a]; simpl in Ha.
    + injection Ha as <-.
      apply list_elem_of_lookup_2, where_from_ge in Hb. lia.
    + eapply IH; eauto. lia.
Qed.

Lemma where_from_length k mask :
  length (where_from k mask) = count_true mask.
Proof.
  unfold count_true. revert k.
  induction mask as [|b m IH]; intros k; simpl; [reflexivity |].
  destruct b.
  - rewrite filter_cons_True by reflexivity. simpl. now rewrite IH.
  - rewrite filter_cons_False by discriminate. apply IH.
Qed.

Lemma index_put_spec {A} (idx : list nat) (vals t : list A) :
  length idx = length vals ->
  Forall (fun i => i < length t) idx ->
  NoDup idx ->
  exists t',
    index_put t idx vals = Some t' /\
    length t' = length t /\
    (forall j i v, idx !! j = Some i -> vals !! j = Some v -> t' !! i = Some v) /\
    (forall i, i ∉ idx -> t' !! i = t !! i).
Proof.
  revert vals t.
  induction idx as [|i idx IH]; intros [|v vals] t Hlen Hrange Hnd;
    simpl in Hlen; try discriminate.
  - exists t. simpl. repeat split; auto. intros j i v H; discriminate.
  - inversion Hrange as [|? ? Hi Hrange']; subst.
    inversion Hnd as [|? ? Hnotin Hnd']; subst.
    destruct (IH vals (<[i:=v]> t)) as (t' & Hput & Hl & Hset & Hkeep); auto.
    { rewrite length_insert. exact Hrange'. }
    exists t'. simpl. destruct (decide (i < length t)); [|contradiction].
    split; [exact Hput |]. split; [now rewrite Hl, length_insert |]. split.
    + intros [|j] i0 v0 Hj Hv; simpl in Hj, Hv.
      * injection Hj as <-. injection Hv as <-.
        rewrite Hkeep by exact Hnotin. now apply list_lookup_insert_eq.
      * eapply Hset; eauto.
    + intros i0 Hi0. apply not_elem_of_cons in Hi0 as [Hne Hi0].
      rewrite Hkeep by exact Hi0. apply list_lookup_insert_ne. congruence.
Qed.

Lemma gather_total {A} (t : list A) (idx : list nat) :
  Forall (fun i => i < length t) idx ->
  exists g, gather t idx = Some g /\ length g = length idx.
Proof.
  intros Hrange.
  destruct (mapM_is_Some_2 (fun i => t !! i) idx) as [g Hg].
  - eapply Forall_impl; [exact Hrange |]. intros i Hi. simpl.
    now apply lookup_lt_is_Some.
  - exists g. split; [exact Hg |]. symmetry. eapply length_mapM; eauto.
Qed.

Lemma where_in_range mask n :
  length mask <= n -> Forall (fun i => i < n) (where_ mask).
Proof.
  intros Hn. apply Forall_forall. intros i Hi.
  apply where_from_elem in Hi as (j & -> & Hj).
  apply lookup_lt_Some in Hj. lia.
Qed.

Lemma arange_lookup n j : j < n -> arange n !! j = Some (Z.of_nat j).
Proof.
  intros Hj. unfold arange. rewrite map_fmap, list_lookup_fmap.
  now rewrite lookup_seq_lt.
Qed.

(** The inverse index tensor that [create_parameters_from_mask] builds. *)
Lemma idx_tensor_spec (mask : list bool) :
  exists idx,
    index_put (full (length mask + 1) (-1)%Z) (where_ mask)
              (arange (length (where_ mask))) = Some idx /\
    length idx = length mask + 1 /\
    (forall j i, where_ mask !! j = Some i -> idx !! i = Some (Z.of_nat j)) /\
    (forall i, i < length idx -> mask !! i <> Some true ->
               idx !! i = Some (-1)%Z).
Proof.
  destruct (index_put_spec (where_ mask) (arange (length (where_ mask)))
              (full (length mask + 1) (-1)%Z))
    as (idx & Hput & Hl & Hset & Hkeep).
  - unfold arange. now rewrite length_map, length_seq.
  - unfold full. rewrite length_replicate. apply where_in_range. lia.
  - apply where_from_NoDup.
  - unfold full in Hl. rewrite length_replicate in Hl.
    exists idx. repeat split; auto.
    + intros j i Hj. eapply Hset; [exact Hj |].
      apply arange_lookup. now apply lookup_lt_Some in Hj.
    + intros i Hi Hm. rewrite Hkeep.
      * unfold full. apply lookup_replicate_2. lia.
      * intros Hin. apply where_from_elem in Hin as (j & -> & Hj).
        now apply Hm.
Qed.

(** C7. Deriving the active parameter set from a mask aligned with the
    volume succeeds; the active tensors have as many entries as the mask
    has [True]s; the inverse index tensor has [voxel_count + 1] entries,
    holds position [j] at the [j]-th active voxel and the sentinel -1
    everywhere else; the active voxels are the [True] positions of the mask
    in ascending order, so positions are handed out from 0 upwards. For the
    mask over 10 voxels that selects 1, 4 and 7 this gives the active
    indices [1; 4; 7] and the inverse tensor with 1 -> 0, 4 -> 1, 7 -> 2
    and -1 in the other eight places. *)
Theorem create_parameters_from_mask_active_set {F : Type}
    (two_optic_axis_components : bool) (volume : Volume F)
    (mask : list bool) :
  length (data (Delta_n volume)) = length mask ->
  length (data (optic_axis volume)) = length mask ->
  exists volume' idx act bir,
    create_parameters_from_mask two_optic_axis_components volume mask
      = Some volume' /\
    indices_active volume' = Some (where_ mask) /\
    active_idx2spatial_idx_tensor volume' = Some idx /\
    optic_axis_active volume' = Some act /\
    birefringence_active volume' = Some bir /\
    length (data act) = count_true mask /\
    length (data bir) = count_true mask /\
    length idx = length mask + 1 /\
    (forall j i, where_ mask !! j = Some i ->
                 mask !! i = Some true /\ idx !! i = Some (Z.of_nat j)) /\
    (forall i, mask !! i = Some true -> exists j, where_ mask !! j = Some i) /\
    (forall i, i < length idx -> mask !! i <> Some true ->
               idx !! i = Some (-1)%Z) /\
    (forall a b i j, where_ mask !! a = Some i -> where_ mask !! b = Some j ->
                     a < b -> i < j) /\
    (mask = mask_1_4_7 ->
       where_ mask = [1; 4; 7] /\
       idx = [-1; 0; -1; -1; 1; -1; -1; 2; -1; -1; -1]%Z).
Proof.
  intros HlenD HlenA.
  destruct (idx_tensor_spec mask) as (idx & Hput & Hl & Hset & Hkeep).
  destruct (gather_total (data (optic_axis volume)) (where_ mask))
    as (act & Hact & Hactl).
  { apply where_in_range. lia. }
  destruct (gather_total (data (Delta_n volume)) (where_ mask))
    as (bir & Hbir & Hbirl).
  { apply where_in_range. lia. }
  unfold where_ in Hactl, Hbirl. rewrite where_from_length in Hactl, Hbirl.
  assert (Hrest :
    (forall j i, where_ mask !! j = Some i ->
                 mask !! i = Some true /\ idx !! i = Some (Z.of_nat j)) /\
    (forall i, mask !! i = Some true -> exists j, where_ mask !! j = Some i) /\
    (forall i, i < length idx -> mask !! i <> Some true ->
               idx !! i = Some (-1)%Z) /\
    (forall a b i j, where_ mask !! a = Some i -> where_ mask !! b = Some j ->
                     a < b -> i < j) /\
    (mask = mask_1_4_7 ->
       where_ mask = [1; 4; 7] /\
       idx = [-1; 0; -1; -1; 1; -1; -1; 2; -1; -1; -1]%Z)).
  { split; [|split; [|split; [|split]]].
    - intros j i Hj. split; [|now apply Hset].
      apply list_elem_of_lookup_2, where_from_elem in Hj as (k & -> & Hk).
      exact Hk.
    - intros i Hi. apply list_elem_of_lookup_1, where_from_elem.
      exists i. split; [reflexivity | exact Hi].
    - exact Hkeep.
    - intros a b i j. apply where_from_ascending.
    - intros ->. split; [reflexivity |].
      vm_compute in Hput. now injection Hput as <-. }
  destruct two_optic_axis_components.
  - eexists _, idx, (mkTensor act false), (nn_Parameter bir).
    unfold create_parameters_from_mask. rewrite Hput. simpl.
    rewrite Hact, Hbir. simpl.
    repeat (split; [reflexivity || assumption |]). exact Hrest.
  - eexists _, idx, (nn_Parameter act), (nn_Parameter bir).
    unfold create_parameters_from_mask. rewrite Hput. simpl.
    rewrite Hact, Hbir. simpl.
    repeat (split; [reflexivity || assumption |]). exact Hrest.
Qed.

Lemma create_parameters_from_mask_active_set_witness :
  exists volume' idx act bir,
    create_parameters_from_mask false (ramp_volume 10) mask_1_4_7
      = Some volume' /\
    indices_active volume' = Some (where_ mask_1_4_7) /\
    active_idx2spatial_idx_tensor volume' = Some idx /\
    optic_axis_active volume' = Some act /\
    birefringence_active volume' = Some bir /\
    length (data act) = 3 /\
    length (data bir) = 3 /\
    idx = [-1; 0; -1; -1; 1; -1; -1; 2; -1; -1; -1]%Z.
Proof.
  destruct (create_parameters_from_mask_active_set false (ramp_volume 10)
              mask_1_4_7 eq_refl eq_refl)
    as (v & idx & act & bir & H1 & H2 & H3 & H4 & H5 & H6 & H7 & _ & _ & _
        & _ & _ & H8).
  exists v, idx, act, bir.
  repeat (split; [assumption |]). now apply H8.
Defined.

End ActiveSet.

(** ** Construction *)

Section Construction.
Import Torch Vol Init.

(** C6. With the large-array removal switched on in [iteration_params] and
    voxel-gradient masking requested, construction never yields a
    [Reconstructor] (so no iteration can run), and once the ray tracer is
    set up the exception is the [ValueError] of the configuration check. *)
Theorem init_rejects_removal_with_masking (c : Collaborators)
    (initial_volume : Volume Q) (iteration_params : gmap string pyval) :
  truthy (get iteration_params "free_memory_by_del_large_arrays"
            (PBool false)) = true ->
  (forall r, init c initial_volume iteration_params true <> inr r) /\
  (forall rays0, setup_raytracer c = inr rays0 ->
     init c initial_volume iteration_params true
       = inl (ValueError cannot_remove_and_mask)).
Proof.
  intros Hflag. unfold init. split.
  - intros r. destruct (setup_raytracer c) as [e | rays0]; simpl.
    + discriminate.
    + rewrite Hflag. simpl. discriminate.
  - intros rays0 ->. simpl. now rewrite Hflag.
Qed.

Lemma init_rejects_removal_with_masking_witness :
  init demo_collab demo_volume demo_params_both true
    = inl (ValueError cannot_remove_and_mask).
Proof.
  exact (proj2 (init_rejects_removal_with_masking demo_collab demo_volume
                  demo_params_both eq_refl) _ eq_refl).
Defined.

End Construction.

Section ConstructionFloat.
Import Torch Vol Floats Init.

Lemma fmul_bool_false (x0 : fval Q) :
  (isfinite x0 = true -> feq0 (InitFloat.fmul_bool x0 false) = true) /\
  (isfinite x0 = false -> InitFloat.fmul_bool x0 false = NaN).
Proof.
  destruct x0 as [q | neg |]; simpl; split; intros H;
    try discriminate H; try reflexivity.
  apply Qeq_bool_iff, Qmult_0_r.
Qed.

Lemma mul_mask_length (a : list (fval Q)) (m : list bool) (d : list (fval Q)) :
  InitFloat.mul_mask a m = inr d ->
  length m = length a -> length d = length a.
Proof.
  unfold InitFloat.mul_mask. intros Hmul Hlen.
  destruct (decide (length a = length m)) as [_ | Hne]; [| now symmetry in Hlen].
  injection Hmul as <-. rewrite length_zip_with. lia.
Qed.

Lemma mul_mask_outside (a : list (fval Q)) (m : list bool) (d : list (fval Q))
    (i : nat) (x0 : fval Q) :
  InitFloat.mul_mask a m = inr d ->
  a !! i = Some x0 -> m !! i = Some false ->
  d !! i = Some (InitFloat.fmul_bool x0 false).
Proof.
  unfold InitFloat.mul_mask. intros Hmul Ha Hm.
  destruct (decide (length a = length m)) as [Hlen | Hlen].
  - injection Hmul as <-. apply lookup_zip_with_Some. eauto.
  - destruct m as [|b [|b' m']].
    + discriminate.
    + destruct i as [|i]; [|discriminate]. injection Hm as ->.
      assert (Hd : d = map (fun y => InitFloat.fmul_bool y false) a)
        by (destruct a as [|? [|? ?]]; congruence).
      subst d. rewrite map_fmap, list_lookup_fmap, Ha. reflexivity.
    + destruct a as [|y [|y' a']]; try discriminate.
      injection Hmul as <-.
      destruct i as [|i]; [|discriminate]. injection Ha as ->.
      injection Hm as ->. reflexivity.
Qed.

(** What [__init__] leaves in the working volume is the product of the
    initial birefringence with the mask the object keeps. *)
Lemma init_masks_volume (c : Collaborators)
    (initial_volume : Volume (fval Q)) (iteration_params : gmap string pyval)
    (apply_mask : bool) (r : InitFloat.Reconstructor) :
  InitFloat.init c initial_volume iteration_params apply_mask = inr r ->
  InitFloat.mul_mask (data (Delta_n initial_volume)) (InitFloat.mask r)
    = inr (data (Delta_n (InitFloat.volume_pred r))).
Proof.
  unfold InitFloat.init. intros Hinit.
  destruct (setup_raytracer c) as [e | rays0]; simpl in Hinit; [discriminate |].
  destruct (truthy (get iteration_params "free_memory_by_del_large_arrays"
                      (PBool false)) && apply_mask); [discriminate |].
  match type of Hinit with
  | bind ?m _ = _ => destruct m as [e | rays1]; simpl in Hinit; [discriminate |]
  end.
  match type of Hinit with
  | bind ?m _ = _ => destruct m as [e | [mk rays2]]; simpl in Hinit; [discriminate |]
  end.
  unfold InitFloat.apply_mask_to_volume in Hinit.
  destruct (InitFloat.mul_mask (data (Delta_n initial_volume)) mk)
    as [e | d] eqn:Hmul; simpl in Hinit; [discriminate |].
  match type of Hinit with
  | bind ?m _ = _ => destruct m as [e | meth]; simpl in Hinit; [discriminate |]
  end.
  match type of Hinit with
  | bind ?m _ = _ => destruct m as [e | w]; simpl in Hinit; [discriminate |]
  end.
  injection Hinit as <-. simpl. exact Hmul.
Qed.

(** C9. When construction completes, every voxel of the initial volume
    whose mask entry is [False] has a birefringence in the working volume,
    namely the initial value times 0: it is zero when the initial value is
    finite, and NaN when the initial value is an infinity or NaN. With a
    mask as long as the volume, the working volume keeps the number of
    voxels. *)
Theorem init_zeroes_outside_mask (c : Collaborators)
    (initial_volume : Volume (fval Q)) (iteration_params : gmap string pyval)
    (apply_mask : bool) (r : InitFloat.Reconstructor) :
  InitFloat.init c initial_volume iteration_params apply_mask = inr r ->
  (length (InitFloat.mask r) = length (data (Delta_n initial_volume)) ->
   length (data (Delta_n (InitFloat.volume_pred r)))
     = length (data (Delta_n initial_volume))) /\
  (forall i x0,
     data (Delta_n initial_volume) !! i = Some x0 ->
     InitFloat.mask r !! i = Some false ->
     data (Delta_n (InitFloat.volume_pred r)) !! i
       = Some (InitFloat.fmul_bool x0 false) /\
     (isfinite x0 = true -> feq0 (InitFloat.fmul_bool x0 false) = true) /\
     (isfinite x0 = false -> InitFloat.fmul_bool x0 false = NaN)).
Proof.
  intros Hinit. apply init_masks_volume in Hinit. split.
  - now apply mul_mask_length.
  - intros i x0 Ha Hm. split.
    + eapply mul_mask_outside; eauto.
    + apply fmul_bool_false.
Qed.

Lemma init_zeroes_outside_mask_witness :
  exists r,
    InitFloat.init demo_collab InitFloat.finite_volume ∅ false = inr r /\
    InitFloat.mask r = [false; true; false; true] /\
    length (data (Delta_n (InitFloat.volume_pred r))) = 4 /\
    data (Delta_n (InitFloat.volume_pred r)) !! 2
      = Some (InitFloat.fmul_bool (Fin 7%Q) false) /\
    feq0 (InitFloat.fmul_bool (Fin 7%Q) false) = true.
Proof.
  destruct (InitFloat.init demo_collab InitFloat.finite_volume ∅ false)
    as [e | r] eqn:Hinit; [discriminate Hinit |].
  exists r.
  destruct (init_zeroes_outside_mask demo_collab InitFloat.finite_volume ∅
              false r Hinit) as [Hlen Hout].
  assert (Hmask : InitFloat.mask r = [false; true; false; true])
    by (vm_compute in Hinit; injection Hinit as <-; reflexivity).
  split; [reflexivity |]. split; [exact Hmask |]. split.
  - apply Hlen. rewrite Hmask. reflexivity.
  - destruct (Hout 2%nat (Fin 7%Q)) as (Hd & Hfin & _).
    + reflexivity.
    + rewrite Hmask. reflexivity.
    + split; [exact Hd | apply Hfin; reflexivity].
Defined.

(** An infinite initial birefringence at a voxel outside the mask is not
    zeroed by construction: the working volume holds NaN there. *)
Lemma init_infinite_outside_mask_not_zeroed :
  ~ InitFloat.zeroes_outside_mask demo_collab InitFloat.infinite_at_0 ∅ false.
Proof.
  intros H.
  destruct (InitFloat.init demo_collab InitFloat.infinite_at_0 ∅ false)
    as [e | r] eqn:Hinit; [discriminate Hinit |].
  specialize (H r).
  vm_compute in Hinit. injection Hinit as <-.
  specialize (H eq_refl 0%nat NaN eq_refl eq_refl).
  discriminate H.
Qed.

End ConstructionFloat.


(** ** Azimuth damping *)

Section AzimuthDamping.
Import Floats Damping.
#[local] Open Scope Q_scope.

Lemma fdiv_by_zero (r m : Q) :
  m == 0 -> isfinite (fdiv r m) = false /\ feq0 (fdiv r m) = false.
Proof.
  intros Hm. unfold fdiv.
  apply Qeq_bool_iff in Hm. rewrite Hm.
  destruct (Qeq_bool r 0); split; reflexivity.
Qed.

Lemma zero_where_nowhere (img : list Q) (mask : list bool) :
  length img = length mask -> Forall (fun b => b = false) mask ->
  zero_where img mask = Some img.
Proof.
  intros Hlen Hall. unfold zero_where.
  destruct (decide (length img = length mask)); [|contradiction].
  f_equal. clear e. revert mask Hlen Hall.
  induction img as [|a img IH]; intros [|b mask] Hlen Hall;
    simpl in *; try discriminate; [reflexivity |].
  inversion Hall as [|? ? Hb Hall']; subst. simpl.
  f_equal. apply IH; [lia | exact Hall'].
Qed.

(** C3, as the code has it. When the maximum of the measured retardance is
    zero, the image is divided by it all the same: every quotient is NaN or
    an infinity, none of them compares equal to 0, and the masking
    assignment returns the predicted azimuth unchanged, without raising. *)
Theorem zero_max_division_unguarded (ret_img_meas azim_img_pred : list Q)
    (m : Q) :
  img_max ret_img_meas = Some m -> m == 0 ->
  length azim_img_pred = length ret_img_meas ->
  (exists quotients,
      azim_damp_mask ret_img_meas = Some quotients /\
      length quotients = length ret_img_meas /\
      Forall (fun q => isfinite q = false) quotients) /\
  damp_azimuth ret_img_meas azim_img_pred = Some azim_img_pred.
Proof.
  intros Hmax Hm Hlen. unfold damp_azimuth, azim_damp_mask.
  rewrite Hmax. simpl. split.
  - eexists. split; [reflexivity |]. split; [apply length_map |].
    apply Forall_forall. intros q Hq.
    apply list_elem_of_In, in_map_iff in Hq as (r & <- & _).
    now apply fdiv_by_zero.
  - apply zero_where_nowhere.
    + now rewrite !length_map.
    + apply Forall_forall. intros b Hb.
      apply list_elem_of_In, in_map_iff in Hb as (q & <- & Hq).
      apply in_map_iff in Hq as (r & <- & _).
      now apply fdiv_by_zero.
Qed.

Lemma zero_max_division_unguarded_witness :
  azim_damp_mask [0; 0] = Some [NaN; NaN] /\
  damp_azimuth [0; 0] [1; 2] = Some [1; 2].
Proof.
  destruct (zero_max_division_unguarded [0; 0] [1; 2] 0 eq_refl
              (Qeq_refl 0) eq_refl) as [_ H].
  split; [reflexivity | exact H].
Defined.

(** C3, as stated, fails on an all-zero retardance image: the quotients
    0/0 are formed, and they are NaN. *)
Lemma division_not_guarded : ~ division_guarded [0; 0].
Proof.
  intros H.
  specialize (H 0 [NaN; NaN] eq_refl (Qeq_refl 0) eq_refl).
  inversion H as [|? ? Hnan _]. discriminate Hnan.
Qed.

End AzimuthDamping.

(** ** Recorded losses and learning rates *)

Section LoopProperties.
Import Loop.
#[local] Open Scope Q_scope.

Lemma adjust_lr_keeps a b ep vars r vars' r' :
  adjust_lr a b ep vars r = Some (vars', r') ->
  results r' = results r /\
  regularization_weight r' = regularization_weight r /\
  nerf_mode r' = nerf_mode r /\
  intensity_bool r' = intensity_bool r.
Proof.
  unfold adjust_lr. intros H.
  destruct (ep <? warmup_epochs)%nat.
  - destruct (set_lr 0 _ _) as [g|]; simpl in H; [|discriminate].
    destruct (if nerf_mode r then _ else _) as [g'|]; simpl in H;
      [|discriminate].
    injection H as _ <-. simpl. auto.
  - destruct (param_groups_lr r !! 0%nat); simpl in H; [|discriminate].
    destruct (if nerf_mode r then _ else _); simpl in H; [|discriminate].
    injection H as _ <-. auto.
Qed.

Lemma one_iteration_records w ext r r' :
  configured_weight (regularization_weight r) = Some w ->
  one_iteration ext r = Some r' ->
  loss_total_list (results r')
    = loss_total_list (results r) ++ [recorded_total w ext] /\
  loss_data_term_list (results r')
    = loss_data_term_list (results r) ++ [ext_data_term ext] /\
  loss_reg_term_list (results r')
    = loss_reg_term_list (results r) ++ [recorded_reg w ext] /\
  regularization_weight r' = WScalar w /\
  nerf_mode r' = nerf_mode r /\
  param_groups_lr r' = ext_scheduler ext (param_groups_lr r).
Proof.
  unfold one_iteration, _compute_loss, configured_weight.
  intros Hw H. rewrite Hw in H. simpl in H. injection H as <-. simpl.
  destruct (intensity_bool r); simpl; auto 10.
Qed.

Lemma epochs_records w a b exts : forall ep vars r vars' r',
  configured_weight (regularization_weight r) = Some w ->
  epochs a b ep exts vars r = Some (vars', r') ->
  loss_total_list (results r')
    = loss_total_list (results r) ++ map (recorded_total w) exts /\
  loss_data_term_list (results r')
    = loss_data_term_list (results r) ++ map ext_data_term exts /\
  loss_reg_term_list (results r')
    = loss_reg_term_list (results r) ++ map (recorded_reg w) exts.
Proof.
  induction exts as [|e exts IH]; intros ep vars r vars' r' Hw H; simpl in H.
  - injection H as _ <-. simpl. now rewrite !app_nil_r.
  - destruct (adjust_lr a b ep vars r) as [[vars1 r1]|] eqn:Hadj;
      simpl in H; [|discriminate].
    destruct (one_iteration e r1) as [r2|] eqn:Hone; simpl in H;
      [|discriminate].
    apply adjust_lr_keeps in Hadj as (Hres & Hwt & _ & _).
    rewrite <- Hwt in Hw.
    destruct (one_iteration_records w e r1 r2 Hw Hone)
      as (Ht & Hd & Hg & Hw2 & _).
    apply IH in H as (Ht' & Hd' & Hg'); [|now rewrite Hw2].
    rewrite Ht', Hd', Hg', Ht, Hd, Hg, Hres. simpl.
    now rewrite <- !app_assoc.
Qed.

(** C1, as the code has it. After a run of [reconstruct] that starts from
    empty lists, epoch k has one entry in each list; the recorded
    regularisation term is already the configured weight times the
    regularisation value of the loss function, and the recorded total is
    the recorded data term plus the recorded regularisation term, with no
    further factor. *)
Theorem recorded_total_is_data_plus_recorded_reg (exts : list EpochExt)
    (r r' : Recon) (w : Q) :
  reconstruct exts r = Some r' ->
  results r = no_results ->
  configured_weight (regularization_weight r) = Some w ->
  length (loss_total_list (results r')) = length exts /\
  length (loss_data_term_list (results r')) = length exts /\
  length (loss_reg_term_list (results r')) = length exts /\
  forall k t d g,
    loss_total_list (results r') !! k = Some t ->
    loss_data_term_list (results r') !! k = Some d ->
    loss_reg_term_list (results r') !! k = Some g ->
    t = d + g /\
    exists e, exts !! k = Some e /\
              d = ext_data_term e /\ g = w * ext_reg_loss e.
Proof.
  unfold reconstruct. intros Hrun Hres Hw.
  destruct (initial_lrs r) as [[a b]|]; simpl in Hrun; [|discriminate].
  destruct (epochs a b 1 exts _ r) as [[vars r1]|] eqn:Hep; simpl in Hrun;
    [|discriminate].
  injection Hrun as <-.
  destruct (epochs_records w a b exts _ _ _ _ _ Hw Hep) as (Ht & Hd & Hg).
  rewrite Hres in Ht, Hd, Hg. simpl in Ht, Hd, Hg.
  rewrite Ht, Hd, Hg, !length_map.
  repeat (split; [reflexivity |]).
  intros k t d g Hkt Hkd Hkg.
  rewrite map_fmap, list_lookup_fmap in Hkt, Hkd, Hkg.
  destruct (exts !! k) as [e|]; [|discriminate].
  injection Hkt as <-. injection Hkd as <-. injection Hkg as <-.
  split; [reflexivity |]. exists e. auto.
Qed.

Lemma recorded_total_is_data_plus_recorded_reg_witness :
  exists r',
    reconstruct [quiet 0 1] (recon0 (WScalar 2) [1; 1]) = Some r' /\
    loss_total_list (results r') = [0 + 2 * 1] /\
    loss_data_term_list (results r') = [0] /\
    loss_reg_term_list (results r') = [2 * 1] /\
    forall t d g,
      loss_total_list (results r') !! 0%nat = Some t ->
      loss_data_term_list (results r') !! 0%nat = Some d ->
      loss_reg_term_list (results r') !! 0%nat = Some g ->
      t = d + g.
Proof.
  eexists. split; [reflexivity |]. repeat (split; [reflexivity |]).
  intros t d g Ht Hd Hg.
  eapply (recorded_total_is_data_plus_recorded_reg [quiet 0 1]
            (recon0 (WScalar 2) [1; 1]) _ 2 eq_refl eq_refl eq_refl);
    eassumption.
Defined.

(** C1, as stated, fails with weight 2, data term 0 and regularisation
    value 1: the lists hold total 2, data 0 and regularisation 2, and
    0 + 2 * 2 is 4; the gap of 2 is no rounding error. *)
Lemma total_is_not_data_plus_weighted_record :
  exists r',
    reconstruct [quiet 0 1] (recon0 (WScalar 2) [1; 1]) = Some r' /\
    ~ total_is_data_plus_weighted_record 1 2 (results r').
Proof.
  eexists. split; [reflexivity |].
  intros H. specialize (H 0%nat _ _ _ eq_refl eq_refl eq_refl).
  vm_compute in H. apply H. reflexivity.
Qed.

Lemma adjust_lr_two_groups a b ep vars r :
  two_groups r ->
  exists vars' r',
    adjust_lr a b ep vars r = Some (vars', r') /\
    two_groups r' /\
    ((ep < warmup_epochs)%nat ->
       param_groups_lr r' = [a * warmup_factor ep; b * warmup_factor ep]) /\
    ((warmup_epochs <= ep)%nat -> param_groups_lr r' = param_groups_lr r).
Proof.
  intros (Hnerf & Hlen & Hw). unfold adjust_lr. rewrite Hnerf.
  destruct (param_groups_lr r) as [|g0 [|g1 [|? ?]]] eqn:Hg;
    simpl in Hlen; try discriminate.
  destruct (Nat.ltb_spec ep warmup_epochs) as [Hlt | Hge].
  - eexists _, _. split; [reflexivity |].
    split; [|split; [reflexivity | lia]].
    repeat split; simpl; auto.
  - eexists _, _. split; [reflexivity |].
    split; [|split; [lia | now rewrite Hg]].
    repeat split; auto. now rewrite Hg.
Qed.

Lemma one_iteration_two_groups ext r :
  two_groups r -> keeps_groups ext ->
  exists r', one_iteration ext r = Some r' /\ two_groups r' /\
             param_groups_lr r' = ext_scheduler ext (param_groups_lr r).
Proof.
  intros (Hnerf & Hlen & [w Hw]) Hkeep.
  destruct (one_iteration ext r) as [r'|] eqn:Hone.
  - destruct (one_iteration_records w ext r r' Hw Hone)
      as (_ & _ & _ & Hw' & Hn' & Hg').
    exists r'. split; [reflexivity |]. split; [|exact Hg'].
    repeat split.
    + now rewrite Hn'.
    + now rewrite Hg', Hkeep.
    + rewrite Hw'. now exists w.
  - unfold one_iteration, _compute_loss in Hone.
    unfold configured_weight in Hw. rewrite Hw in Hone. discriminate.
Qed.

Lemma epochs_two_groups a b exts : forall ep vars r,
  two_groups r -> Forall keeps_groups exts ->
  exists vars' r', epochs a b ep exts vars r = Some (vars', r') /\
                   two_groups r'.
Proof.
  induction exts as [|e exts IH]; intros ep vars r Hr Hk; simpl.
  - eauto.
  - inversion Hk as [|? ? He Hk']; subst.
    destruct (adjust_lr_two_groups a b ep vars r Hr)
      as (vars1 & r1 & -> & Hr1 & _). simpl.
    destruct (one_iteration_two_groups e r1 Hr1 He) as (r2 & -> & Hr2 & _).
    simpl. now apply IH.
Qed.

Lemma epochs_snoc a b exts e : forall ep vars r,
  epochs a b ep (exts ++ [e]) vars r =
  '(vars1, r1) ← epochs a b ep exts vars r;
  '(vars2, r2) ← adjust_lr a b (ep + length exts) vars1 r1;
  r3 ← one_iteration e r2;
  Some (vars2, r3).
Proof.
  induction exts as [|x exts IH]; intros ep vars r; simpl.
  - rewrite Nat.add_0_r.
    destruct (adjust_lr a b ep vars r) as [[v1 r1]|]; simpl; [|reflexivity].
    destruct (one_iteration e r1); reflexivity.
  - destruct (adjust_lr a b ep vars r) as [[v1 r1]|]; simpl; [|reflexivity].
    destruct (one_iteration x r1) as [r2|]; simpl; [|reflexivity].
    rewrite IH. now replace (S ep + length exts)%nat
                      with (ep + S (length exts))%nat by lia.
Qed.

Lemma warmup_factor_1 : warmup_factor 1 == 19 # 100.
Proof. reflexivity. Qed.

Lemma warmup_factor_9 : warmup_factor 9 == 91 # 100.
Proof. reflexivity. Qed.

(** C2, as the code has it. With two parameter groups at initial rates
    [lr0] and [lr1], every epoch [ep] from 1 to 9 starts by setting the
    rates to the initial ones times [0.1 + 0.9 * ep / 10]: 0.19 of the
    initial rate in epoch 1 and 0.91 of it in epoch 9. Epoch 10
    ([warmup_epochs]) writes nothing: it runs at what the scheduler made of
    the rates of epoch 9. *)
Theorem warmup_learning_rates (exts : list EpochExt) (r : Recon)
    (lr0 lr1 : Q) :
  two_groups r -> param_groups_lr r = [lr0; lr1] ->
  Forall keeps_groups exts ->
  (forall ep, (1 <= ep < warmup_epochs)%nat -> (ep <= length exts + 1)%nat ->
     lrs_in_epoch ep exts r
       = Some [lr0 * warmup_factor ep; lr1 * warmup_factor ep]) /\
  warmup_factor 1 == 19 # 100 /\
  warmup_factor 9 == 91 # 100 /\
  (forall e9, exts !! 8%nat = Some e9 ->
     lrs_in_epoch warmup_epochs exts r
       = Some (ext_scheduler e9
                 [lr0 * warmup_factor 9; lr1 * warmup_factor 9])).
Proof.
  intros Hr Hg Hk.
  assert (Hinit : initial_lrs r = Some (lr0, lr1)).
  { unfold initial_lrs. destruct Hr as (-> & _). now rewrite Hg. }
  split; [|split; [apply warmup_factor_1 | split; [apply warmup_factor_9 |]]].
  - intros ep Hep Hlen. unfold lrs_in_epoch. rewrite Hinit. simpl.
    destruct (epochs_two_groups lr0 lr1 (take (ep - 1) exts) 1
                (mkLrVars None None) r Hr) as (vars1 & r1 & -> & Hr1).
    { now apply Forall_take. }
    simpl.
    destruct (adjust_lr_two_groups lr0 lr1 ep vars1 r1 Hr1)
      as (vars2 & r2 & -> & _ & Hwarm & _).
    simpl. f_equal. apply Hwarm. lia.
  - intros e9 He9. unfold lrs_in_epoch. rewrite Hinit. simpl.
    assert (Htake : take 9 exts = take 8 exts ++ [e9])
      by now rewrite (take_S_r exts 8 e9 He9).
    rewrite Htake, epochs_snoc.
    destruct (epochs_two_groups lr0 lr1 (take 8 exts) 1
                (mkLrVars None None) r Hr) as (vars1 & r1 & -> & Hr1).
    { now apply Forall_take. }
    simpl.
    assert (Hl8 : length (take 8 exts) = 8%nat).
    { rewrite length_take. apply lookup_lt_Some in He9. lia. }
    rewrite Hl8.
    destruct (adjust_lr_two_groups lr0 lr1 9 vars1 r1 Hr1)
      as (vars2 & r2 & -> & Hr2 & Hwarm & _).
    simpl.
    assert (He9k : keeps_groups e9).
    { eapply Forall_forall in Hk; [exact Hk |].
      eapply list_elem_of_lookup_2; eauto. }
    destruct (one_iteration_two_groups e9 r2 Hr2 He9k)
      as (r3 & -> & Hr3 & Hg3).
    simpl.
    destruct (adjust_lr_two_groups lr0 lr1 warmup_epochs vars2 r3 Hr3)
      as (vars4 & r4 & -> & _ & _ & Hstay).
    simpl. f_equal. rewrite Hstay, Hg3, Hwarm by (unfold warmup_epochs; lia).
    reflexivity.
Qed.

Lemma quiet_keeps_groups d g : keeps_groups (quiet d g).
Proof. intros l. reflexivity. Qed.

Lemma recon0_two_groups w a b : two_groups (recon0 (WScalar w) [a; b]).
Proof. repeat split. now exists w. Qed.

Lemma warmup_learning_rates_witness :
  lrs_in_epoch 1 (replicate 12 (quiet 0 1)) (recon0 (WScalar 1) [1; 1])
    = Some [1 * warmup_factor 1; 1 * warmup_factor 1] /\
  lrs_in_epoch 10 (replicate 12 (quiet 0 1)) (recon0 (WScalar 1) [1; 1])
    = Some [1 * warmup_factor 9; 1 * warmup_factor 9].
Proof.
  destruct (warmup_learning_rates (replicate 12 (quiet 0 1))
              (recon0 (WScalar 1) [1; 1]) 1 1
              (recon0_two_groups 1 1 1) eq_refl)
    as (Hwarm & _ & _ & Hten).
  - apply Forall_replicate, quiet_keeps_groups.
  - split.
    + apply Hwarm; simpl; unfold warmup_epochs; lia.
    + exact (Hten (quiet 0 1) eq_refl).
Defined.

(** C2, as stated, fails in epoch 1: with initial rates 1 and 1 the groups
    run at 0.19, not at 0.1. *)
Lemma epoch_1_not_at_start_proportion :
  ~ epoch_1_at_start_proportion (replicate 12 (quiet 0 1))
      (recon0 (WScalar 1) [1; 1]).
Proof.
  intros H. destruct (H 1 1 eq_refl) as (a & b & Hlr & Ha & _).
  vm_compute in Hlr. injection Hlr as <- _.
  vm_compute in Ha. discriminate Ha.
Qed.

End LoopProperties.

(** ** The vector form of the data term *)

Section VectorForm.
Import Metric.
#[local] Open Scope R_scope.

Lemma cos_double_shift (a : R) : cos (2 * (a + PI)) = cos (2 * a).
Proof.
  replace (2 * (a + PI)) with (2 * a + 2 * PI) by ring.
  rewrite cos_plus, cos_2PI, sin_2PI. ring.
Qed.

Lemma sin_double_shift (a : R) : sin (2 * (a + PI)) = sin (2 * a).
Proof.
  replace (2 * (a + PI)) with (2 * a + 2 * PI) by ring.
  rewrite sin_plus, cos_2PI, sin_2PI. ring.
Qed.

Lemma elementwise_shift (f g : R -> R -> R) (ret azim : list R) :
  (forall r a, f r (a + PI) = g r a) ->
  elementwise f ret (shift_pi azim) = elementwise g ret azim.
Proof.
  intros Hfg. unfold elementwise, shift_pi. rewrite length_map.
  destruct (decide (length ret = length azim)); [|reflexivity].
  f_equal. clear e. revert azim.
  induction ret as [|r ret IH]; intros [|a azim]; simpl; try reflexivity.
  now rewrite Hfg, IH.
Qed.

Lemma transform_shift (ret azim : list R) :
  transform_ret_azim_to_vector_form ret (shift_pi azim)
  = transform_ret_azim_to_vector_form ret azim.
Proof.
  unfold transform_ret_azim_to_vector_form.
  rewrite (elementwise_shift (fun r a => r * cos (2 * a))
                             (fun r a => r * cos (2 * a)))
    by (intros r a; now rewrite cos_double_shift).
  destruct (elementwise _ ret azim) as [cosine_term|]; simpl;
    [|reflexivity].
  rewrite (elementwise_shift (fun r a => r * sin (2 * a))
                             (fun r a => r * sin (2 * a)))
    by (intros r a; now rewrite sin_double_shift).
  reflexivity.
Qed.

(** C8. The vector-form data term does not change when pi is added to
    every azimuth, be it of the predicted image or of the measured one:
    the transform only looks at the cosine and sine of twice the azimuth. *)
Theorem vector_data_term_azimuth_period (self : PolarimetricLossFunction)
    (ret_gt azim_gt ret_pred azim_pred : list R) :
  let measured azim :=
    set_orientation_target (set_retardance_target self ret_gt) azim in
  compute_datafidelity_term (measured azim_gt) ret_pred (shift_pi azim_pred)
                            "vector"
  = compute_datafidelity_term (measured azim_gt) ret_pred azim_pred "vector"
  /\
  compute_datafidelity_term (measured (shift_pi azim_gt)) ret_pred azim_pred
                            "vector"
  = compute_datafidelity_term (measured azim_gt) ret_pred azim_pred "vector".
Proof.
  simpl. unfold compute_datafidelity_term, vector_loss. simpl.
  now rewrite !transform_shift.
Qed.

(** On images of one shape the data term is a number, so the equalities
    above are between numbers, not between two failures. *)
Lemma vector_data_term_defined (self : PolarimetricLossFunction)
    (ret_gt azim_gt ret_pred azim_pred : list R) :
  length azim_gt = length ret_gt -> length ret_pred = length ret_gt ->
  length azim_pred = length ret_gt ->
  exists x,
    compute_datafidelity_term
      (set_orientation_target (set_retardance_target self ret_gt) azim_gt)
      ret_pred azim_pred "vector" = Some x.
Proof.
  intros H1 H2 H3.
  unfold compute_datafidelity_term, vector_loss,
    transform_ret_azim_to_vector_form, mse_loss, elementwise. simpl.
  repeat (destruct (decide _) as [? | Hne];
          [simpl | exfalso; apply Hne;
                   rewrite ?length_zip_with; simpl; lia]).
  eauto.
Qed.

End VectorForm.

(** ** The unit sphere *)

Section UnitSphere.
Import Torch Vol Floats Sphere.
#[local] Open Scope R_scope.

Lemma sq_sum_nonneg (a b c : R) : 0 <= a * a + b * b + c * c.
Proof. nra. Qed.

Lemma norm_nonneg (v : Vec3 R) : 0 <= norm v.
Proof. apply sqrt_pos. Qed.

Lemma norm_scale (k : R) (v : Vec3 R) :
  0 <= k -> norm (scale k v) = k * norm v.
Proof.
  intros Hk. unfold norm, scale. simpl.
  replace (k * c0 v * (k * c0 v) + k * c1 v * (k * c1 v)
           + k * c2 v * (k * c2 v))
    with (k * k * (c0 v * c0 v + c1 v * c1 v + c2 v * c2 v)) by ring.
  rewrite sqrt_mult; [|nra | apply sq_sum_nonneg].
  now rewrite sqrt_square.
Qed.

Lemma norm_normalized (v : Vec3 R) :
  norm v <> 0 -> norm (scale (/ norm v) v) = 1.
Proof.
  intros Hv. pose proof (norm_nonneg v) as Hpos.
  rewrite norm_scale.
  - now apply Rinv_l.
  - left. apply Rinv_0_lt_compat. lra.
Qed.





(** [create_parameters_from_mask] leaves the volume in the shape the
    projection expects. *)
Lemma create_parameters_active_set_ready (two : bool)
    (volume volume' : Volume R) (mask : list bool) :
  create_parameters_from_mask two volume mask = Some volume' ->
  active_set_ready two volume' /\ is_Some (optic_axis_active volume').
Proof.
  unfold create_parameters_from_mask. intros H.
  destruct (index_put _ _ _) as [idx|]; simpl in H; [|discriminate].
  destruct (gather (data (optic_axis volume)) (where_ mask)) as [act|] eqn:Ha;
    [|destruct two; simpl in H; rewrite ?Ha in H; discriminate].
  destruct (gather (data (Delta_n volume)) (where_ mask)) as [bir|] eqn:Hb;
    [|destruct two; simpl in H; rewrite ?Ha in H; discriminate].
  destruct two; simpl in H; rewrite ?Ha in H; simpl in H;
    injection H as <-; unfold active_set_ready; simpl.
  - split; [split; [discriminate | eauto] | eauto].
  - split; [split; [discriminate | discriminate] | eauto].
Qed.








End UnitSphere.

(** ** Recovery from NaN optic axes *)

Section NanRecovery.
Import Torch Vol Floats Sphere.
#[local] Open Scope R_scope.

Lemma count_true_cons (b : bool) (mask : list bool) :
  count_true (b :: mask)
  = ((if b then 1 else 0) + count_true mask)%nat.
Proof.
  unfold count_true. destruct b.
  - now rewrite filter_cons_True.
  - now rewrite filter_cons_False.
Qed.

Lemma masked_assign_length {A} (t : list A) : forall mask vals,
  length (masked_assign t mask vals) = length t.
Proof.
  induction t as [|x t IH]; intros [|b mask] vals; simpl; try reflexivity.
  destruct b; [destruct vals|]; simpl; now rewrite IH.
Qed.

Lemma masked_assign_keeps {A} (t : list A) : forall mask vals i x,
  t !! i = Some x -> mask !! i = Some false ->
  masked_assign t mask vals !! i = Some x.
Proof.
  induction t as [|y t IH]; intros [|b mask] vals i x Ht Hm;
    try discriminate.
  destruct i as [|i]; simpl in Ht, Hm.
  - injection Hm as ->. exact Ht.
  - simpl. destruct b; [destruct vals|]; simpl; now apply IH.
Qed.

Lemma masked_assign_writes {A} (t : list A) : forall mask vals i,
  (i < length t)%nat -> mask !! i = Some true ->
  (count_true mask <= length vals)%nat ->
  (count_true (take i mask) < count_true mask)%nat /\
  masked_assign t mask vals !! i = vals !! count_true (take i mask).
Proof.
  induction t as [|y t IH]; intros [|b mask] vals i Hi Hm Hn;
    try discriminate; simpl in Hi; [lia |].
  rewrite count_true_cons in Hn.
  destruct i as [|i]; simpl in Hm.
  - injection Hm as ->. simpl in Hn. rewrite count_true_cons.
    destruct vals as [|v vals]; simpl in Hn; [lia |].
    split; [simpl; unfold count_true at 1; simpl; lia | reflexivity].
  - simpl take. rewrite !count_true_cons.
    destruct b; simpl in Hn |- *.
    + destruct vals as [|v vals]; simpl in Hn; [lia |].
      destruct (IH mask vals i) as [Hlt Heq]; [lia | exact Hm | lia |].
      split; [lia | exact Heq].
    + destruct (IH mask vals i) as [Hlt Heq]; [lia | exact Hm | lia |].
      split; [lia | exact Heq].
Qed.

Lemma normalize_unit (v : Vec3 R) :
  eps_normalize <= norm v -> norm (normalize v) = 1.
Proof.
  intros Hv. unfold normalize.
  assert (Heps : 0 < eps_normalize)
    by (unfold eps_normalize; apply Rinv_0_lt_compat; lra).
  rewrite Rmax_left by exact Hv.
  apply norm_normalized. lra.
Qed.

(** C5, as the code has it. One call of [replace_nans] replaces exactly the
    optic-axis vectors whose row 0 is NaN, the k-th of them by the k-th
    sampled vector after normalisation, which is finite and, for a sample
    of norm at least 1e-12, of norm 1; every vector whose row 0 is not NaN
    stays as it is, and so does the birefringence. *)
Theorem replace_nans_row_0 (rand : nat -> Vec3 R)
    (volume : Volume (fval R)) (ep : nat) :
  let volume' := fst (replace_nans rand volume ep) in
  length (data (optic_axis volume')) = length (data (optic_axis volume)) /\
  Delta_n volume' = Delta_n volume /\
  (forall i v, data (optic_axis volume) !! i = Some v ->
               isnan (c0 v) = false ->
               data (optic_axis volume') !! i = Some v) /\
  (forall i v, data (optic_axis volume) !! i = Some v ->
               isnan (c0 v) = true ->
               exists k,
                 data (optic_axis volume') !! i
                 = Some (lift (normalize (rand k))) /\
                 vec_finite (lift (normalize (rand k))) = true /\
                 (eps_normalize <= norm (rand k) ->
                  unit_vector (lift (normalize (rand k))))).
Proof.
  simpl. unfold replace_nans.
  set (axes := data (optic_axis volume)).
  set (nan_mask := map (fun v => isnan (c0 v)) axes).
  assert (Hmask : forall i v, axes !! i = Some v ->
                              nan_mask !! i = Some (isnan (c0 v))).
  { intros i v Hv. unfold nan_mask.
    now rewrite map_fmap, list_lookup_fmap, Hv. }
  destruct (Nat.ltb_spec 0 (count_true nan_mask)) as [Hpos | Hzero]; simpl.
  - split; [apply masked_assign_length |]. split; [reflexivity |]. split.
    + intros i v Hv Hnan. apply masked_assign_keeps; [exact Hv |].
      rewrite (Hmask i v Hv). now rewrite Hnan.
    + intros i v Hv Hnan.
      destruct (masked_assign_writes axes nan_mask
                  (map (fun k => lift (normalize (rand k)))
                       (seq 0 (count_true nan_mask))) i)
        as [Hlt Heq].
      * now apply lookup_lt_Some in Hv.
      * rewrite (Hmask i v Hv). now rewrite Hnan.
      * now rewrite length_map, length_seq.
      * exists (count_true (take i nan_mask)). split; [|split].
        -- rewrite Heq, map_fmap, list_lookup_fmap.
           now rewrite lookup_seq_lt.
        -- reflexivity.
        -- intros Heps. eexists. split; [reflexivity |].
           now apply normalize_unit.
  - split; [reflexivity |]. split; [reflexivity |]. split.
    + intros i v Hv _. exact Hv.
    + intros i v Hv Hnan. exfalso.
      assert (Hin : (0 < count_true nan_mask)%nat); [|lia].
      pose proof (Hmask i v Hv) as Hi. rewrite Hnan in Hi.
      clear - Hi. revert i Hi.
      induction nan_mask as [|b m IH]; intros i Hi; [discriminate |].
      rewrite count_true_cons. destruct i as [|i]; simpl in Hi.
      * injection Hi as ->. lia.
      * apply IH in Hi. lia.
Qed.

Lemma norm_e0 : norm (mkVec3 1 0 0) = 1.
Proof.
  unfold norm. simpl.
  replace (1 * 1 + 0 * 0 + 0 * 0) with 1 by ring. apply sqrt_1.
Qed.

Lemma replace_nans_row_0_witness :
  exists v',
    data (optic_axis (fst (replace_nans sample_e0 nan_in_the_middle 1)))
      !! 1%nat = Some v' /\
    unit_vector v' /\
    data (optic_axis (fst (replace_nans sample_e0 nan_in_the_middle 1)))
      !! 2%nat = Some (mkVec3 (Fin 0) (Fin 1) (Fin 0)).
Proof.
  destruct (replace_nans_row_0 sample_e0 nan_in_the_middle 1)
    as (_ & _ & Hkeep & Hrepl).
  destruct (Hrepl 1%nat (mkVec3 NaN NaN NaN) eq_refl eq_refl)
    as (k & Hk & _ & Hunit).
  exists (lift (normalize (sample_e0 k))). split; [exact Hk |]. split.
  - apply Hunit. unfold sample_e0. rewrite norm_e0.
    unfold eps_normalize. lra.
  - now apply (Hkeep 2%nat).
Defined.

(** C5, as stated, fails for a vector that is not finite in row 1 only:
    [replace_nans] looks at row 0, finds no NaN and leaves the vector as it
    is, whatever is sampled. *)
Lemma nan_in_row_1_not_recovered :
  ~ recovers_non_finite sample_e0 nan_in_row_1 1.
Proof.
  intros H.
  destruct (H 0%nat (mkVec3 (Fin 0) NaN (Fin 0)) _ eq_refl eq_refl eq_refl)
    as (u & Hu & _).
  discriminate Hu.
Qed.

End NanRecovery.

(** ** More on the active parameter set *)

Section ActiveSetMore.
Import Torch Vol.

Lemma gather_lookup {A} (t g : list A) (idx : list nat) j i :
  gather t idx = Some g -> idx !! j = Some i -> g !! j = t !! i.
Proof.
  unfold gather. intros Hg Hj. apply mapM_Some in Hg.
  destruct (Forall2_lookup_l _ _ _ _ _ Hg Hj) as (y & Hy & Hty).
  now rewrite Hy, Hty.
Qed.

Lemma gather_is_Some {A} (t : list A) (idx : list nat) :
  is_Some (gather t idx) <-> Forall (fun i => i < length t) idx.
Proof.
  unfold gather. rewrite mapM_is_Some. apply Forall_iff.
  intros i. simpl. apply lookup_lt_is_Some.
Qed.

Lemma index_put_total {A} (t : list A) (mask : list bool) (vals : list A) :
  length mask <= length t -> length vals = count_true mask ->
  exists t',
    index_put t (where_ mask) vals = Some t' /\
    length t' = length t /\
    gather t' (where_ mask) = Some vals /\
    (forall i, mask !! i <> Some true -> t' !! i = t !! i).
Proof.
  intros Hlen Hvals.
  destruct (index_put_spec (where_ mask) vals t)
    as (t' & Hput & Hl & Hset & Hkeep).
  - unfold where_. now rewrite where_from_length.
  - now apply where_in_range.
  - apply where_from_NoDup.
  - exists t'. split; [exact Hput |]. split; [exact Hl |]. split.
    + unfold gather. apply mapM_Some, Forall2_same_length_lookup. split.
      * unfold where_. now rewrite where_from_length.
      * intros j i v Hj Hv. eapply Hset; eauto.
    + intros i Hi. apply Hkeep. intros Hin.
      apply where_from_elem in Hin as (k & -> & Hk). now apply Hi.
Qed.

Lemma index_put_gathered {A} (idx : list nat) : forall (t g : list A),
  gather t idx = Some g -> index_put t idx g = Some t.
Proof.
  induction idx as [|i idx IH]; intros t g Hg.
  - unfold gather in Hg. simpl in Hg. injection Hg as <-. reflexivity.
  - unfold gather in Hg. apply mapM_Some in Hg.
    inversion Hg as [|? v ? g' Hv Hrest]; subst. simpl.
    destruct (decide (i < length t)) as [_ | Hge].
    + rewrite list_insert_id by exact Hv.
      apply IH. unfold gather. now apply mapM_Some.
    + exfalso. apply Hge. now apply lookup_lt_Some in Hv.
Qed.

(** X1. The active tensors hold, at position j, the birefringence and the
    optic axis of the j-th selected voxel of the full grid. *)
Theorem create_parameters_gathers_selected {F : Type} (two : bool)
    (volume volume' : Volume F) (mask : list bool) (j i : nat) :
  create_parameters_from_mask two volume mask = Some volume' ->
  where_ mask !! j = Some i ->
  exists act bir x v,
    optic_axis_active volume' = Some act /\
    birefringence_active volume' = Some bir /\
    data bir !! j = Some x /\ data (Delta_n volume) !! i = Some x /\
    data act !! j = Some v /\ data (optic_axis volume) !! i = Some v.
Proof.
  unfold create_parameters_from_mask. intros H Hj.
  destruct (index_put _ _ _) as [idx|]; simpl in H; [|discriminate].
  destruct (gather (data (optic_axis volume)) (where_ mask)) as [act|] eqn:Ha;
    [|destruct two; simpl in H; rewrite ?Ha in H; discriminate].
  destruct (gather (data (Delta_n volume)) (where_ mask)) as [bir|] eqn:Hb;
    [|destruct two; simpl in H; rewrite ?Ha in H; discriminate].
  pose proof (gather_lookup _ _ _ _ _ Ha Hj) as Hact.
  pose proof (gather_lookup _ _ _ _ _ Hb Hj) as Hbir.
  assert (Hlt : j < length bir).
  { apply mapM_Some, Forall2_length in Hb. rewrite <- Hb.
    now apply lookup_lt_Some in Hj. }
  assert (Hlt' : j < length act).
  { apply mapM_Some, Forall2_length in Ha. rewrite <- Ha.
    now apply lookup_lt_Some in Hj. }
  destruct (lookup_lt_is_Some_2 _ _ Hlt) as [x Hx].
  destruct (lookup_lt_is_Some_2 _ _ Hlt') as [v Hv].
  destruct two; simpl in H; rewrite ?Ha in H; simpl in H; injection H as <-;
    simpl; eexists _, _, x, v;
    (split; [reflexivity |]); (split; [reflexivity |]); simpl;
    (split; [exact Hx |]); (split; [congruence |]);
    (split; [exact Hv | congruence]).
Qed.

Lemma create_parameters_gathers_selected_witness :
  exists act bir,
    optic_axis_active
      <$> create_parameters_from_mask false (ramp_volume 10) mask_1_4_7
      = Some (Some act) /\
    birefringence_active
      <$> create_parameters_from_mask false (ramp_volume 10) mask_1_4_7
      = Some (Some bir) /\
    data bir !! 1 = Some 4%Z /\ data act !! 1 = Some (mkVec3 1 0 4)%Z.
Proof.
  destruct (create_parameters_from_mask false (ramp_volume 10) mask_1_4_7)
    as [volume'|] eqn:Hc; [|discriminate Hc].
  destruct (create_parameters_gathers_selected false (ramp_volume 10) volume'
              mask_1_4_7 1 4 Hc eq_refl)
    as (act & bir & x & v & Ha & Hb & Hx & Hx' & Hv & Hv').
  exists act, bir. simpl. rewrite Ha, Hb.
  split; [reflexivity |]. split; [reflexivity |].
  split; [rewrite Hx | rewrite Hv]; symmetry; assumption.
Defined.

(** X2. The inverse index tensor really inverts the list of active indices:
    an entry is either the sentinel -1, at a voxel the mask does not select,
    or the position j at which that very voxel sits in [indices_active]; the
    extra last slot always holds the sentinel. *)
Theorem inverse_index_inverts {F : Type} (two : bool)
    (volume volume' : Volume F) (mask : list bool) :
  create_parameters_from_mask two volume mask = Some volume' ->
  exists idx active,
    active_idx2spatial_idx_tensor volume' = Some idx /\
    indices_active volume' = Some active /\
    idx !! length mask = Some (-1)%Z /\
    forall i z, idx !! i = Some z ->
      (z = (-1)%Z /\ mask !! i <> Some true) \/
      (exists j, z = Z.of_nat j /\ active !! j = Some i /\
                 mask !! i = Some true).
Proof.
  unfold create_parameters_from_mask. intros H.
  destruct (idx_tensor_spec mask) as (idx & Hput & Hl & Hset & Hkeep).
  rewrite Hput in H. simpl in H.
  assert (Hidx : idx !! length mask = Some (-1)%Z /\
    forall i z, idx !! i = Some z ->
      (z = (-1)%Z /\ mask !! i <> Some true) \/
      (exists j, z = Z.of_nat j /\ where_ mask !! j = Some i /\
                 mask !! i = Some true)).
  { split.
    - apply Hkeep; [lia |]. intros Hm. apply lookup_lt_Some in Hm. lia.
    - intros i z Hz.
      destruct (mask !! i) as [[|]|] eqn:Hm.
      + right.
        assert (Hin : i ∈ where_ mask)
          by (apply where_from_elem; exists i; auto).
        apply list_elem_of_lookup_1 in Hin as [j Hj].
        exists j. rewrite (Hset j i Hj) in Hz. injection Hz as <-. auto.
      + left. rewrite Hkeep in Hz.
        * injection Hz as <-. split; [reflexivity | congruence].
        * now apply lookup_lt_Some in Hz.
        * congruence.
      + left. rewrite Hkeep in Hz.
        * injection Hz as <-. split; [reflexivity | congruence].
        * now apply lookup_lt_Some in Hz.
        * congruence. }
  destruct (gather (data (optic_axis volume)) (where_ mask)) as [act|] eqn:Ha;
    [|destruct two; simpl in H; rewrite ?Ha in H; discriminate].
  destruct (gather (data (Delta_n volume)) (where_ mask)) as [bir|] eqn:Hb;
    [|destruct two; simpl in H; rewrite ?Ha in H; discriminate].
  destruct two; simpl in H; rewrite ?Ha in H; simpl in H; injection H as <-;
    simpl; exists idx, (where_ mask); auto.
Qed.

Lemma inverse_index_inverts_witness :
  exists volume' idx,
    create_parameters_from_mask true (ramp_volume 10) mask_1_4_7
      = Some volume' /\
    active_idx2spatial_idx_tensor volume' = Some idx /\
    idx !! 10 = Some (-1)%Z.
Proof.
  destruct (create_parameters_from_mask true (ramp_volume 10) mask_1_4_7)
    as [volume'|] eqn:Hc; [|discriminate Hc].
  destruct (inverse_index_inverts true (ramp_volume 10) volume' mask_1_4_7 Hc)
    as (idx & active & Hi & _ & Hlast & _).
  exists volume', idx. auto.
Defined.

(** X3. Deriving the active set fails exactly when the mask selects a voxel
    that the birefringence or the optic axis of the volume does not have. *)
Theorem create_parameters_fails_iff_out_of_range {F : Type} (two : bool)
    (volume : Volume F) (mask : list bool) :
  create_parameters_from_mask two volume mask = None <->
  exists i, mask !! i = Some true /\
            (length (data (Delta_n volume)) <= i \/
             length (data (optic_axis volume)) <= i).
Proof.
  assert (Hrange : forall (A : Type) (t : list A),
    gather t (where_ mask) = None <->
    exists i, mask !! i = Some true /\ length t <= i).
  { intros A t. rewrite eq_None_not_Some, gather_is_Some.
    rewrite <- Exists_Forall_neg
      by (intros i; destruct (decide (i < length t)); auto).
    rewrite Exists_exists. split.
    - intros (i & Hin & Hi).
      apply where_from_elem in Hin as (k & -> & Hk). exists k. split; auto.
      simpl. lia.
    - intros (i & Hm & Hi). exists i. split; [|lia].
      apply where_from_elem. exists i. auto. }
  assert (Hcreate :
    create_parameters_from_mask two volume mask = None <->
    gather (data (optic_axis volume)) (where_ mask) = None \/
    gather (data (Delta_n volume)) (where_ mask) = None).
  { unfold create_parameters_from_mask.
    destruct (idx_tensor_spec mask) as (idx & -> & _). simpl.
    destruct (gather (data (optic_axis volume)) (where_ mask)) as [act|];
      destruct (gather (data (Delta_n volume)) (where_ mask)) as [bir|];
      destruct two; simpl; split; auto; try discriminate;
      intros [H | H]; discriminate. }
  rewrite Hcreate, !Hrange. split.
  - intros [(i & Hm & Hi) | (i & Hm & Hi)]; exists i; auto.
  - intros (i & Hm & [Hi | Hi]); [right | left]; exists i; auto.
Qed.

Lemma create_parameters_fails_iff_out_of_range_witness :
  create_parameters_from_mask false (ramp_volume 2) [false; false; true]
  = None.
Proof.
  apply create_parameters_fails_iff_out_of_range.
  exists 2. split; [reflexivity | left; simpl; lia].
Defined.

End ActiveSetMore.

(** ** Scattering back *)

Section ScatterBack.
Import Torch Vol Checkpoint.
Context {F : Type}.
Variable zero : F.

Lemma index_assign_selected {A} (t : list A) (idx : list nat) (vals : list A) :
  length vals = length idx -> index_assign t idx vals = index_put t idx vals.
Proof.
  intros Hlen. unfold index_assign.
  destruct vals as [|v [|w vals]]; try reflexivity.
  simpl in Hlen. now rewrite <- Hlen.
Qed.

Lemma scatter_selected {A} (t : list A) (mask : list bool) (vals : list A) :
  length mask <= length t -> length vals = count_true mask ->
  exists t',
    index_assign t (where_ mask) vals = Some t' /\
    length t' = length t /\
    gather t' (where_ mask) = Some vals /\
    (forall i, mask !! i <> Some true -> t' !! i = t !! i).
Proof.
  intros Hlen Hvals. rewrite index_assign_selected.
  - now apply index_put_total.
  - unfold where_. now rewrite where_from_length.
Qed.

Lemma at_save_freq_nonzero (save_freq : Z) (ep : nat) :
  save_freq <> 0%Z ->
  at_save_freq save_freq ep = Some (Z.of_nat ep mod save_freq =? 0)%Z.
Proof.
  intros Hsf. unfold at_save_freq.
  destruct (Z.eqb_spec save_freq 0); [contradiction | reflexivity].
Qed.

Lemma sync_birefringence_selected (remove_large_arrs : bool)
    (vol_size : nat) (volume : Volume F) (mask : list bool) (bir : Tensor F) :
  indices_active volume = Some (where_ mask) ->
  birefringence_active volume = Some bir ->
  length (data bir) = count_true mask ->
  length mask <= (if remove_large_arrs then vol_size
                  else length (data (Delta_n volume))) ->
  exists d,
    sync_birefringence zero remove_large_arrs vol_size volume = Some d /\
    length (data d) = (if remove_large_arrs then vol_size
                       else length (data (Delta_n volume))) /\
    gather (data d) (where_ mask) = Some (data bir) /\
    forall i, mask !! i <> Some true ->
      data d !! i = if remove_large_arrs then full vol_size zero !! i
                    else data (Delta_n volume) !! i.
Proof.
  intros Hidx Hbir Hlen HlenD.
  unfold sync_birefringence. rewrite Hidx, Hbir.
  replace (if remove_large_arrs
           then Some bir ≫= (fun _ => Some (mkTensor (full vol_size zero) false))
           else Some (Delta_n volume))
    with (Some (if remove_large_arrs
                then mkTensor (full vol_size zero) false
                else Delta_n volume))
    by (now destruct remove_large_arrs).
  simpl.
  destruct (scatter_selected
              (data (if remove_large_arrs
                     then mkTensor (full vol_size zero) false
                     else Delta_n volume)) mask (data bir))
    as (d & -> & Hl & Hg & Hout); [|exact Hlen |].
  - destruct remove_large_arrs; simpl; [|exact HlenD].
    unfold full. now rewrite length_replicate.
  - simpl. eexists. split; [reflexivity |]. simpl.
    split; [|split; [exact Hg |]].
    + rewrite Hl. destruct remove_large_arrs; simpl; [|reflexivity].
      unfold full. now rewrite length_replicate.
    + intros i Hi. rewrite (Hout i Hi). now destruct remove_large_arrs.
Qed.

(** X4. In an epoch that is no multiple of [save_freq], [visualize_and_save]
    saves nothing and leaves the full-grid optic axis as it was, not in step
    with the active one, while the birefringence grid is brought up to
    date: read at the active indices it gives the active values, and a voxel
    outside the mask keeps its value, or holds 0 when the grid is rebuilt in
    the memory-saving mode. *)
Theorem visualize_and_save_between_checkpoints (remove_large_arrs : bool)
    (vol_size : nat) (save_freq : Z) (ep : nat) (volume : Volume F)
    (mask : list bool) (bir : Tensor F) :
  indices_active volume = Some (where_ mask) ->
  birefringence_active volume = Some bir ->
  length (data bir) = count_true mask ->
  length mask <= (if remove_large_arrs then vol_size
                  else length (data (Delta_n volume))) ->
  save_freq <> 0%Z ->
  (Z.of_nat ep mod save_freq <> 0)%Z ->
  exists volume',
    visualize_and_save zero remove_large_arrs vol_size save_freq ep volume
      = Some (volume', None) /\
    optic_axis volume' = optic_axis volume /\
    gather (data (Delta_n volume')) (where_ mask) = Some (data bir) /\
    forall i, mask !! i <> Some true ->
      data (Delta_n volume') !! i
      = if remove_large_arrs then full vol_size zero !! i
        else data (Delta_n volume) !! i.
Proof.
  intros Hidx Hbir Hlen HlenD Hsf Hmod.
  destruct (sync_birefringence_selected remove_large_arrs vol_size volume
              mask bir Hidx Hbir Hlen HlenD)
    as (d & Hd & _ & Hg & Hout).
  unfold visualize_and_save. rewrite Hd. simpl.
  rewrite (at_save_freq_nonzero _ _ Hsf). simpl.
  destruct (Z.eqb_spec (Z.of_nat ep mod save_freq) 0); [contradiction |].
  eexists. split; [reflexivity |]. simpl. auto.
Qed.

(** X5. In an epoch that is a multiple of [save_freq] the volume handed to
    [save_as_file] is the volume left behind, and both of its grids are up
    to date: read at the active indices they give the active birefringence
    and the active optic axis; outside the mask they keep their values, or
    hold zeros in the memory-saving mode. *)
Theorem visualize_and_save_at_checkpoint (remove_large_arrs : bool)
    (vol_size : nat) (save_freq : Z) (ep : nat) (volume : Volume F)
    (mask : list bool) (bir : Tensor F) (act : Tensor (Vec3 F)) :
  indices_active volume = Some (where_ mask) ->
  birefringence_active volume = Some bir ->
  optic_axis_active volume = Some act ->
  length (data bir) = count_true mask ->
  length (data act) = count_true mask ->
  length mask <= (if remove_large_arrs then vol_size
                  else length (data (Delta_n volume))) ->
  length mask <= (if remove_large_arrs then vol_size
                  else length (data (optic_axis volume))) ->
  save_freq <> 0%Z ->
  (Z.of_nat ep mod save_freq = 0)%Z ->
  exists volume',
    visualize_and_save zero remove_large_arrs vol_size save_freq ep volume
      = Some (volume', Some volume') /\
    gather (data (Delta_n volume')) (where_ mask) = Some (data bir) /\
    gather (data (optic_axis volume')) (where_ mask) = Some (data act) /\
    forall i, mask !! i <> Some true ->
      data (Delta_n volume') !! i
      = (if remove_large_arrs then full vol_size zero !! i
         else data (Delta_n volume) !! i) /\
      data (optic_axis volume') !! i
      = (if remove_large_arrs
         then full vol_size (mkVec3 zero zero zero) !! i
         else data (optic_axis volume) !! i).
Proof.
  intros Hidx Hbir Hact Hlen HlenA HlenD HlenO Hsf Hmod.
  destruct (sync_birefringence_selected remove_large_arrs vol_size volume
              mask bir Hidx Hbir Hlen HlenD)
    as (d & Hd & Hdl & Hg & Hout).
  unfold visualize_and_save. rewrite Hd. simpl.
  rewrite (at_save_freq_nonzero _ _ Hsf). simpl.
  rewrite Hmod. simpl.
  unfold sync_optic_axis. rewrite Hidx, Hact.
  replace (if remove_large_arrs
           then Some act ≫= (fun _ => Some (mkTensor
                  (full (length (data d)) (mkVec3 zero zero zero)) false))
           else Some (optic_axis volume))
    with (Some (if remove_large_arrs
                then mkTensor (full (length (data d))
                                    (mkVec3 zero zero zero)) false
                else optic_axis volume))
    by (now destruct remove_large_arrs).
  simpl.
  destruct (scatter_selected
              (data (if remove_large_arrs
                     then mkTensor (full (length (data d))
                                         (mkVec3 zero zero zero)) false
                     else optic_axis volume)) mask (data act))
    as (ax & -> & _ & Hga & Houta); [|exact HlenA |].
  - rewrite Hdl. destruct remove_large_arrs; simpl; [|exact HlenO].
    unfold full. now rewrite length_replicate.
  - simpl. eexists. split; [reflexivity |]. simpl.
    split; [exact Hg |]. split; [exact Hga |].
    intros i Hi. split; [now apply Hout |].
    rewrite (Houta i Hi). rewrite Hdl. now destruct remove_large_arrs.
Qed.

(** X6. Deriving the active set and scattering it back at once gives the
    grids of the volume back unchanged: nothing is lost on the way from the
    grid to the active tensors and back. *)
Theorem create_then_save_is_identity (two : bool) (vol_size : nat)
    (save_freq : Z) (ep : nat) (volume volume' : Volume F)
    (mask : list bool) :
  create_parameters_from_mask two volume mask = Some volume' ->
  save_freq <> 0%Z ->
  (Z.of_nat ep mod save_freq = 0)%Z ->
  exists saved,
    visualize_and_save zero false vol_size save_freq ep volume'
      = Some (saved, Some saved) /\
    data (Delta_n saved) = data (Delta_n volume) /\
    data (optic_axis saved) = data (optic_axis volume).
Proof.
  unfold create_parameters_from_mask. intros H Hsf Hmod.
  destruct (index_put _ _ _) as [idx|]; simpl in H; [|discriminate].
  destruct (gather (data (optic_axis volume)) (where_ mask)) as [act|] eqn:Ha;
    [|destruct two; simpl in H; rewrite ?Ha in H; discriminate].
  destruct (gather (data (Delta_n volume)) (where_ mask)) as [bir|] eqn:Hb;
    [|destruct two; simpl in H; rewrite ?Ha in H; discriminate].
  assert (Hla : length act = length (where_ mask))
    by (symmetry; eapply length_mapM; exact Ha).
  assert (Hlb : length bir = length (where_ mask))
    by (symmetry; eapply length_mapM; exact Hb).
  unfold visualize_and_save, sync_birefringence, sync_optic_axis.
  destruct two; simpl in H; rewrite ?Ha in H; simpl in H; injection H as <-;
    simpl;
    rewrite (index_assign_selected _ _ _ Hlb), (index_put_gathered _ _ _ Hb);
    simpl; rewrite (at_save_freq_nonzero _ _ Hsf); simpl; rewrite Hmod; simpl;
    rewrite (index_assign_selected _ _ _ Hla), (index_put_gathered _ _ _ Ha);
    simpl; eexists; (split; [reflexivity |]); simpl; auto.
Qed.

End ScatterBack.

Lemma visualize_and_save_between_checkpoints_witness :
  exists volume',
    Checkpoint.visualize_and_save 0%Z true 10 5 3 Checkpoint.ramp_active
      = Some (volume', None) /\
    Torch.data (Vol.Delta_n volume')
    = [0; 1; 0; 0; 4; 0; 0; 7; 0; 0]%Z.
Proof.
  destruct (visualize_and_save_between_checkpoints 0%Z true 10 5 3
              Checkpoint.ramp_active Vol.mask_1_4_7
              (Torch.mkTensor [1; 4; 7]%Z true))
    as (volume' & Hv & _);
    [reflexivity | reflexivity | reflexivity | simpl; lia | discriminate
    | vm_compute; discriminate |].
  exists volume'. split; [exact Hv |].
  vm_compute in Hv. now injection Hv as <-.
Defined.

Lemma visualize_and_save_at_checkpoint_witness :
  exists volume',
    Checkpoint.visualize_and_save 0%Z true 10 5 10 Checkpoint.ramp_active
      = Some (volume', Some volume') /\
    Torch.gather (Torch.data (Vol.optic_axis volume')) [1; 4; 7]
    = Some [Vol.mkVec3 1 0 1; Vol.mkVec3 1 0 4; Vol.mkVec3 1 0 7]%Z.
Proof.
  destruct (visualize_and_save_at_checkpoint 0%Z true 10 5 10
              Checkpoint.ramp_active Vol.mask_1_4_7
              (Torch.mkTensor [1; 4; 7]%Z true)
              (Torch.mkTensor
                 [Vol.mkVec3 1 0 1; Vol.mkVec3 1 0 4; Vol.mkVec3 1 0 7]%Z
                 true))
    as (volume' & Hv & _ & Hax & _);
    [reflexivity | reflexivity | reflexivity | reflexivity | reflexivity
    | simpl; lia | simpl; lia | discriminate | reflexivity |].
  exists volume'. split; [exact Hv | exact Hax].
Defined.

Lemma create_then_save_is_identity_witness :
  exists saved,
    Checkpoint.visualize_and_save 0%Z false 10 5 5 Checkpoint.ramp_active
      = Some (saved, Some saved) /\
    Torch.data (Vol.Delta_n saved) = Torch.data (Vol.Delta_n (Vol.ramp_volume 10)).
Proof.
  destruct (create_then_save_is_identity 0%Z false 10 5 5 (Vol.ramp_volume 10)
              Checkpoint.ramp_active Vol.mask_1_4_7)
    as (saved & Hs & Hd & _); [reflexivity | discriminate | reflexivity |].
  exists saved. auto.
Defined.

(** ** More on construction *)

Section ConstructionMore.
Import Torch Vol Init.

Lemma mul_mask_true (a : list Q) (m : list bool) (d : list Q) i x :
  mul_mask a m = inr d ->
  m !! i = Some true -> a !! i = Some x ->
  exists y, d !! i = Some y /\ (y == x)%Q.
Proof.
  unfold mul_mask. intros Hmul Hm Ha.
  destruct (decide (length a = length m)) as [Hlen | Hlen].
  - injection Hmul as <-. exists (x * 1)%Q. split; [|apply Qmult_1_r].
    apply lookup_zip_with_Some. exists x, true. auto.
  - destruct m as [|b [|b' m']].
    + discriminate.
    + destruct i as [|i]; [|discriminate]. injection Hm as ->.
      assert (Hd : d = (fun y => (y * 1)%Q) <$> a)
        by (destruct a as [|? [|? ?]]; rewrite <- map_fmap; congruence).
      subst d. exists (x * 1)%Q. split; [|apply Qmult_1_r].
      now rewrite list_lookup_fmap, Ha.
    + destruct a as [|y [|y' a']]; try discriminate.
      destruct i as [|i]; [|discriminate]. injection Ha as ->.
      injection Hmul as <-. exists (x * 1)%Q. split; [|apply Qmult_1_r].
      simpl in Hm. injection Hm as ->. reflexivity.
Qed.

(** X7. Construction masks the birefringence only: inside the mask every
    voxel keeps its birefringence, and the optic axis of the working volume
    is that of the initial guess. *)
Theorem init_keeps_inside_mask (c : Collaborators)
    (initial_volume : Volume Q) (iteration_params : gmap string pyval)
    (apply_mask : bool) (r : Reconstructor) :
  init c initial_volume iteration_params apply_mask = inr r ->
  optic_axis (volume_pred r) = optic_axis initial_volume /\
  forall i x,
    mask r !! i = Some true ->
    data (Delta_n initial_volume) !! i = Some x ->
    exists y, data (Delta_n (volume_pred r)) !! i = Some y /\ (y == x)%Q.
Proof.
  unfold init. intros Hinit.
  destruct (setup_raytracer c) as [e | rays0]; simpl in Hinit; [discriminate |].
  destruct (truthy (get iteration_params "free_memory_by_del_large_arrays"
                      (PBool false)) && apply_mask); [discriminate |].
  match type of Hinit with
  | bind ?m _ = _ => destruct m as [e | rays1]; simpl in Hinit; [discriminate |]
  end.
  match type of Hinit with
  | bind ?m _ = _ => destruct m as [e | [mk rays2]]; simpl in Hinit; [discriminate |]
  end.
  unfold apply_mask_to_volume in Hinit.
  destruct (mul_mask (data (Delta_n initial_volume)) mk) as [e | d] eqn:Hmul;
    simpl in Hinit; [discriminate |].
  match type of Hinit with
  | bind ?m _ = _ => destruct m as [e | meth]; simpl in Hinit; [discriminate |]
  end.
  match type of Hinit with
  | bind ?m _ = _ => destruct m as [e | w]; simpl in Hinit; [discriminate |]
  end.
  injection Hinit as <-. simpl. split; [reflexivity |].
  intros i x Hm Hx. eapply mul_mask_true; eauto.
Qed.

Lemma init_keeps_inside_mask_witness :
  exists r y,
    init demo_collab demo_volume ∅ false = inr r /\
    data (Delta_n (volume_pred r)) !! 1 = Some y /\ (y == 6)%Q.
Proof.
  destruct (init demo_collab demo_volume ∅ false) as [e | r] eqn:Hinit;
    [discriminate Hinit |].
  destruct (init_keeps_inside_mask demo_collab demo_volume ∅ false r Hinit)
    as [_ Hin].
  destruct (Hin 1 6%Q) as (y & Hy & Hy6).
  - vm_compute in Hinit. now injection Hinit as <-.
  - reflexivity.
  - exists r, y. auto.
Defined.

Lemma index_put_constant {A} (v : A) (idx : list nat) : forall (t t' : list A),
  index_put t idx (replicate (length idx) v) = Some t' ->
  length t' = length t /\
  forall i, i < length t ->
    t' !! i = if decide (i ∈ idx) then Some v else t !! i.
Proof.
  induction idx as [|k idx IH]; intros t t' H; simpl in H.
  - injection H as <-. split; [reflexivity |].
    intros i _. destruct (decide (i ∈ [])) as [Hin | _]; [inversion Hin | auto].
  - destruct (decide (k < length t)) as [Hk | Hk]; [|discriminate].
    apply IH in H as (Hl & Hlook). rewrite length_insert in Hl, Hlook.
    split; [exact Hl |].
    intros i Hi. rewrite (Hlook i Hi).
    destruct (decide (i ∈ idx)) as [Hin | Hnin].
    + rewrite decide_True by (apply elem_of_cons; right; exact Hin).
      reflexivity.
    + destruct (decide (i = k)) as [-> | Hne].
      * rewrite decide_True by (apply elem_of_cons; left; reflexivity).
        now apply list_lookup_insert_eq.
      * rewrite decide_False
          by (intros Hc; apply elem_of_cons in Hc as [? | ?]; auto).
        apply list_lookup_insert_ne. congruence.
Qed.

Lemma index_put_in_range {A} (idx : list nat) : forall (t vals : list A),
  length idx = length vals -> Forall (fun i => i < length t) idx ->
  is_Some (index_put t idx vals).
Proof.
  induction idx as [|k idx IH]; intros t [|v vals] Hlen Hr;
    simpl in Hlen; try discriminate; simpl.
  - eauto.
  - inversion Hr as [|? ? Hk Hr']; subst.
    destruct (decide (k < length t)); [|contradiction].
    apply IH; [lia |]. now rewrite length_insert.
Qed.

Lemma index_put_out_of_range {A} (idx : list nat) : forall (t vals : list A),
  ~ Forall (fun i => i < length t) idx -> index_put t idx vals = None.
Proof.
  induction idx as [|k idx IH]; intros t vals Hn.
  - exfalso. apply Hn. constructor.
  - destruct vals as [|v vals]; [reflexivity |]. simpl.
    destruct (decide (k < length t)) as [Hk | Hk]; [|reflexivity].
    apply IH. rewrite length_insert. intros Hf. apply Hn.
    constructor; assumption.
Qed.

(** X8. [voxel_mask_setup] turns the list of voxels it is given into a mask
    as long as the volume that is [True] exactly at the listed voxels, and
    stores the same mask on the rays; a listed voxel beyond the volume makes
    it fail with [IndexError]. *)
Theorem voxel_mask_setup_marks_listed (c : Collaborators) (rays0 : Rays)
    (from_sim : bool) (volume : Volume Q) (voxels : list nat) :
  (if MLA_volume_geometry_ready rays0
   then filter_voxels_using_retardance c rays0
   else sorted_vox_list c rays0 from_sim) = inr voxels ->
  let n := length (data (Delta_n volume)) in
  (Forall (fun i => i < n) voxels ->
   exists m,
     voxel_mask_setup c rays0 from_sim volume
       = inr (m, mkRays (MLA_volume_geometry_ready rays0) (Some m)) /\
     length m = n /\
     forall i, i < n -> m !! i = Some (bool_decide (i ∈ voxels))) /\
  (~ Forall (fun i => i < n) voxels ->
   voxel_mask_setup c rays0 from_sim volume = inl IndexError).
Proof.
  intros Hvox n. unfold voxel_mask_setup. rewrite Hvox. simpl.
  fold n. unfold mask_of_voxels, full. split.
  - intros Hrange.
    destruct (index_put_in_range voxels (replicate n false)
                (replicate (length voxels) true)) as [m Hput].
    { now rewrite length_replicate. }
    { now rewrite length_replicate. }
    rewrite Hput. simpl.
    apply index_put_constant in Hput as (Hl & Hlook).
    rewrite length_replicate in Hl, Hlook.
    exists m. split; [reflexivity |]. split; [exact Hl |].
    intros i Hi. rewrite (Hlook i Hi).
    destruct (decide (i ∈ voxels)) as [Hin | Hnin].
    + now rewrite bool_decide_eq_true_2.
    + rewrite lookup_replicate_2 by exact Hi.
      now rewrite bool_decide_eq_false_2.
  - intros Hrange. rewrite index_put_out_of_range; [reflexivity |].
    now rewrite length_replicate.
Qed.

Lemma voxel_mask_setup_marks_listed_witness :
  voxel_mask_setup demo_collab (mkRays true None) false demo_volume
  = inr ([false; true; false; true],
         mkRays true (Some [false; true; false; true])).
Proof.
  destruct (voxel_mask_setup_marks_listed demo_collab (mkRays true None) false
              demo_volume [1; 3] eq_refl) as [Hok _].
  destruct Hok as (m & Hm & _).
  - repeat constructor.
  - rewrite Hm. vm_compute in Hm. now injection Hm as <-.
Defined.

(** X9. When the rays come with a mask and are not prepared anew, that mask
    is the one construction uses, whatever the voxel filters would say. *)
Theorem init_prefers_mask_of_rays (c : Collaborators)
    (initial_volume : Volume Q) (iteration_params : gmap string pyval)
    (apply_mask : bool) (rays0 : Rays) (m : list bool) (r : Reconstructor) :
  setup_raytracer c = inr rays0 ->
  rays_mask rays0 = Some m ->
  truthy (get iteration_params "mla_rays_at_once" (PBool false))
    && negb (MLA_volume_geometry_ready rays0) = false ->
  init c initial_volume iteration_params apply_mask = inr r ->
  mask r = m /\ rays r = rays0.
Proof.
  unfold init. intros Hrays Hmask Hprep Hinit.
  rewrite Hrays in Hinit. simpl in Hinit.
  destruct (truthy (get iteration_params "free_memory_by_del_large_arrays"
                      (PBool false)) && apply_mask); [discriminate |].
  rewrite Hprep in Hinit. simpl in Hinit. rewrite Hmask in Hinit.
  simpl in Hinit.
  match type of Hinit with
  | bind ?m _ = _ => destruct m as [e | v]; simpl in Hinit; [discriminate |]
  end.
  match type of Hinit with
  | bind ?m _ = _ => destruct m as [e | meth]; simpl in Hinit; [discriminate |]
  end.
  match type of Hinit with
  | bind ?m _ = _ => destruct m as [e | w]; simpl in Hinit; [discriminate |]
  end.
  injection Hinit as <-. auto.
Qed.

Lemma init_prefers_mask_of_rays_witness :
  exists r,
    init (mkCollab (inr (mkRays true (Some [true; false; true; true])))
                   (fun r => inr r)
                   (fun _ => inl (CollaboratorError "no retardance"))
                   (fun _ _ => inl (CollaboratorError "no lenslets")))
         demo_volume ∅ false = inr r /\
    mask r = [true; false; true; true].
Proof.
  match goal with
  | |- exists r, ?i = inr r /\ _ => destruct i as [e | r] eqn:Hinit
  end; [discriminate Hinit |].
  exists r. split; [reflexivity |].
  eapply init_prefers_mask_of_rays; [| | | exact Hinit]; reflexivity.
Defined.

End ConstructionMore.

(** ** More on the azimuth damping *)

Section DampingMore.
Import Floats Damping.
#[local] Open Scope Q_scope.

Lemma zero_where_lookup (img : list Q) (mask : list bool) (out : list Q) :
  zero_where img mask = Some out ->
  length out = length img /\
  forall i (a : Q) (b : bool), img !! i = Some a -> mask !! i = Some b ->
                                 out !! i = Some (if b then 0 else a).
Proof.
  unfold zero_where. destruct (decide _) as [Hlen|]; [|discriminate].
  intros H. injection H as <-. split.
  - rewrite length_zip_with. lia.
  - intros i a b Ha Hb. apply lookup_zip_with_Some. exists a, b. auto.
Qed.

Lemma zero_where_total (img : list Q) (mask : list bool) :
  length img = length mask -> exists out, zero_where img mask = Some out.
Proof.
  intros Hlen. unfold zero_where.
  destruct (decide _); [eauto | contradiction].
Qed.

(** X10. When the maximum of the measured retardance is not zero, the
    predicted azimuth is set to 0 exactly at the pixels whose quotient by
    the maximum, rounded to the floating-point type, is 0, and kept at
    every other pixel. As rounding maps 0 to 0, every pixel of zero measured
    retardance is among the pixels set to 0. *)
Theorem damp_azimuth_zeroes_dark_pixels (rnd : Q -> fval Q)
    (ret_img_meas azim_img_pred : list Q) (m : Q) :
  (forall q, q == 0 -> feq0 (rnd q) = true) ->
  img_max ret_img_meas = Some m -> ~ m == 0 ->
  length azim_img_pred = length ret_img_meas ->
  exists out,
    DampingRounded.damp_azimuth rnd ret_img_meas azim_img_pred = Some out /\
    length out = length azim_img_pred /\
    forall i r a,
      ret_img_meas !! i = Some r -> azim_img_pred !! i = Some a ->
      out !! i = Some (if feq0 (rnd (r / m)) then 0 else a) /\
      (r == 0 -> out !! i = Some 0).
Proof.
  intros Hrnd Hmax Hm Hlen.
  unfold DampingRounded.damp_azimuth, DampingRounded.azim_damp_mask.
  rewrite Hmax. simpl.
  destruct (zero_where_total azim_img_pred
              (map feq0 (map (fun r => DampingRounded.fdiv rnd r m)
                           ret_img_meas))) as [out Hz].
  { now rewrite !length_map. }
  rewrite Hz. apply zero_where_lookup in Hz as (Hl & Hlook).
  exists out. split; [reflexivity |]. split; [exact Hl |].
  intros i r a Hr Ha.
  assert (Hi : out !! i = Some (if feq0 (rnd (r / m)) then 0 else a)).
  { apply (Hlook i a _ Ha).
    rewrite !map_fmap, !list_lookup_fmap, Hr. simpl.
    unfold DampingRounded.fdiv.
    destruct (Qeq_bool m 0) eqn:Hm0; [| reflexivity].
    apply Qeq_bool_iff in Hm0. contradiction. }
  split; [exact Hi |].
  intros Hr0. rewrite Hi, Hrnd; [reflexivity |].
  rewrite Hr0. unfold Qdiv. apply Qmult_0_l.
Qed.

Lemma damp_azimuth_zeroes_dark_pixels_witness :
  DampingRounded.damp_azimuth DampingRounded.range32
    DampingRounded.faint_pixel_image [5; 6; 7] = Some [0; 0; 7].
Proof.
  destruct (damp_azimuth_zeroes_dark_pixels DampingRounded.range32
              DampingRounded.faint_pixel_image [5; 6; 7]
              (inject_Z (2 ^ 100))) as (out & Hout & _).
  - intros q Hq. unfold DampingRounded.range32.
    rewrite Hq. reflexivity.
  - reflexivity.
  - discriminate.
  - reflexivity.
  - rewrite Hout. vm_compute in Hout. now injection Hout as <-.
Defined.

(** X11. The two damping lines fail exactly on an empty retardance image,
    whose maximum does not exist, and on images of different sizes. *)
Theorem damp_azimuth_fails_iff (ret_img_meas azim_img_pred : list Q) :
  damp_azimuth ret_img_meas azim_img_pred = None <->
  ret_img_meas = [] \/ length azim_img_pred <> length ret_img_meas.
Proof.
  unfold damp_azimuth, azim_damp_mask, zero_where.
  destruct ret_img_meas as [|r rest]; simpl.
  - split; auto.
  - rewrite !length_map.
    destruct (decide (length azim_img_pred = S (length rest))) as [Hl | Hl];
      simpl; split; try discriminate; auto.
    intros [H | H]; [discriminate | contradiction].
Qed.

End DampingMore.

(** ** More on the loop *)

Section LoopMore.
Import Loop Schedule.
#[local] Open Scope Q_scope.

Lemma warmup_factor_below_peak (ep : nat) :
  (ep < warmup_epochs)%nat -> warmup_factor ep <= warmup_peak.
Proof.
  unfold warmup_epochs. intros Hep.
  do 10 (destruct ep as [|ep]; [vm_compute; discriminate |]). lia.
Qed.

Lemma one_iteration_below_peak lr0 lr1 ext r r' :
  keeps_groups ext -> never_raises ext ->
  one_iteration ext r = Some r' ->
  param_groups_lr r' = ext_scheduler ext (param_groups_lr r) ->
  below_peak lr0 lr1 r -> below_peak lr0 lr1 r'.
Proof.
  intros Hk Hn Hone Hg (x & y & Hxy & Hx & Hy).
  pose proof (Hk [x; y]) as Hlen. rewrite Hxy in Hg.
  destruct (ext_scheduler ext [x; y]) as [|x' [|y' [|? ?]]] eqn:Hs;
    simpl in Hlen; try discriminate.
  exists x', y'. split; [exact Hg |]. split.
  - eapply Qle_trans; [|exact Hx]. apply (Hn [x; y] 0%nat x x'); [reflexivity |].
    now rewrite Hs.
  - eapply Qle_trans; [|exact Hy]. apply (Hn [x; y] 1%nat y y'); [reflexivity |].
    now rewrite Hs.
Qed.

Lemma epochs_below_peak lr0 lr1 exts : forall ep vars r,
  0 <= lr0 -> 0 <= lr1 ->
  two_groups r -> Forall keeps_groups exts -> Forall never_raises exts ->
  (ep < warmup_epochs)%nat \/ below_peak lr0 lr1 r ->
  exists vars' r',
    epochs lr0 lr1 ep exts vars r = Some (vars', r') /\ two_groups r' /\
    ((ep + length exts < warmup_epochs)%nat \/ below_peak lr0 lr1 r').
Proof.
  induction exts as [|e exts IH]; intros ep vars r H0 H1 Hr Hk Hn Hp; simpl.
  - exists vars, r. split; [reflexivity |]. split; [exact Hr |].
    rewrite Nat.add_0_r. exact Hp.
  - inversion Hk as [|? ? Hke Hk']; subst.
    inversion Hn as [|? ? Hne Hn']; subst.
    destruct (adjust_lr_two_groups lr0 lr1 ep vars r Hr)
      as (vars1 & r1 & -> & Hr1 & Hwarm & Hstay). simpl.
    assert (Hb1 : below_peak lr0 lr1 r1).
    { destruct (Nat.lt_ge_cases ep warmup_epochs) as [Hlt | Hge].
      - exists (lr0 * warmup_factor ep), (lr1 * warmup_factor ep).
        split; [now apply Hwarm |].
        split; (rewrite (Qmult_comm _ (warmup_factor ep)),
                        (Qmult_comm _ warmup_peak);
                apply Qmult_le_compat_r;
                [now apply warmup_factor_below_peak | assumption]).
      - destruct Hp as [Hlt | (x & y & Hxy & Hx & Hy)]; [lia |].
        exists x, y. rewrite (Hstay Hge). auto. }
    destruct (one_iteration_two_groups e r1 Hr1 Hke) as (r2 & Hone & Hr2 & Hg2).
    rewrite Hone. simpl.
    pose proof (one_iteration_below_peak lr0 lr1 e r1 r2 Hke Hne Hone Hg2 Hb1)
      as Hb2.
    destruct (IH (S ep) vars1 r2 H0 H1 Hr2 Hk' Hn' (or_intror Hb2))
      as (vars' & r' & -> & Hr' & Hp').
    exists vars', r'. split; [reflexivity |]. split; [exact Hr' |].
    destruct Hp' as [Hlt | Hb]; [left; lia | right; exact Hb].
Qed.

(** X12. With two parameter groups at non-negative initial rates and a
    scheduler that never raises a rate, no epoch runs above 0.91 of the
    initial rates: the warmup stops at that factor and the loop never sets
    the rates back to the initial ones. *)
Theorem rates_stay_below_warmup_peak (exts : list EpochExt) (r : Recon)
    (lr0 lr1 : Q) (ep : nat) :
  two_groups r -> param_groups_lr r = [lr0; lr1] ->
  0 <= lr0 -> 0 <= lr1 ->
  Forall keeps_groups exts -> Forall never_raises exts ->
  (1 <= ep <= length exts + 1)%nat ->
  exists a b,
    lrs_in_epoch ep exts r = Some [a; b] /\
    a <= lr0 * (91 # 100) /\ b <= lr1 * (91 # 100).
Proof.
  intros Hr Hg H0 H1 Hk Hn Hep.
  assert (Hinit : initial_lrs r = Some (lr0, lr1)).
  { unfold initial_lrs. destruct Hr as (-> & _). now rewrite Hg. }
  unfold lrs_in_epoch. rewrite Hinit. simpl.
  destruct (epochs_below_peak lr0 lr1 (take (ep - 1) exts) 1
              (mkLrVars None None) r H0 H1 Hr)
    as (vars1 & r1 & -> & Hr1 & Hp1).
  { now apply Forall_take. }
  { now apply Forall_take. }
  { left. unfold warmup_epochs. lia. }
  simpl. rewrite length_take in Hp1.
  replace (1 + (ep - 1) `min` length exts)%nat with ep in Hp1 by lia.
  destruct (adjust_lr_two_groups lr0 lr1 ep vars1 r1 Hr1)
    as (vars2 & r2 & -> & _ & Hwarm & Hstay). simpl.
  destruct (Nat.lt_ge_cases ep warmup_epochs) as [Hlt | Hge].
  - rewrite (Hwarm Hlt). eexists _, _. split; [reflexivity |].
    split; (rewrite (Qmult_comm _ (warmup_factor ep)),
                    (Qmult_comm _ (91 # 100));
            apply Qmult_le_compat_r;
            [now apply warmup_factor_below_peak | assumption]).
  - destruct Hp1 as [Hlt | (x & y & Hxy & Hx & Hy)]; [lia |].
    rewrite (Hstay Hge), Hxy. exists x, y. auto.
Qed.

Lemma quiet_never_raises d g : never_raises (quiet d g).
Proof.
  intros l i x y Hx Hy. simpl in Hy. rewrite Hx in Hy.
  injection Hy as <-. apply Qle_refl.
Qed.

Lemma rates_stay_below_warmup_peak_witness :
  exists a b,
    lrs_in_epoch 12 (replicate 12 (quiet 0 1)) (recon0 (WScalar 1) [1; 1])
      = Some [a; b] /\
    a <= 1 * (91 # 100) /\ b <= 1 * (91 # 100).
Proof.
  apply rates_stay_below_warmup_peak.
  - apply recon0_two_groups.
  - reflexivity.
  - discriminate.
  - discriminate.
  - apply Forall_replicate, quiet_keeps_groups.
  - apply Forall_replicate, quiet_never_raises.
  - simpl. lia.
Defined.

Lemma lrs_in_epoch_from (ep : nat) (exts : list EpochExt) (r : Recon)
    (lr0 lr1 : Q) :
  initial_lrs r = Some (lr0, lr1) ->
  lrs_in_epoch ep exts r =
  '(vars, r1) ← epochs lr0 lr1 1 (take (ep - 1) exts) (mkLrVars None None) r;
  '(_, r2) ← adjust_lr lr0 lr1 ep vars r1;
  Some (param_groups_lr r2).
Proof. intros Hinit. unfold lrs_in_epoch. now rewrite Hinit. Qed.

(** X13. From epoch 10 on the loop writes no learning rate: every epoch
    runs at what the scheduler made of the rates of the epoch before. *)
Theorem rates_after_warmup_follow_scheduler (exts : list EpochExt)
    (r : Recon) (ep : nat) (e : EpochExt) :
  two_groups r -> Forall keeps_groups exts ->
  (warmup_epochs <= ep)%nat ->
  exts !! (ep - 1)%nat = Some e ->
  exists g,
    lrs_in_epoch ep exts r = Some g /\
    lrs_in_epoch (S ep) exts r = Some (ext_scheduler e g).
Proof.
  intros Hr Hk Hep He.
  destruct Hr as (Hnerf & Hlen & Hw).
  destruct (param_groups_lr r) as [|lr0 [|lr1 [|? ?]]] eqn:Hg;
    simpl in Hlen; try discriminate.
  assert (Hr : two_groups r) by (repeat split; auto; now rewrite Hg).
  assert (Hinit : initial_lrs r = Some (lr0, lr1)).
  { unfold initial_lrs. now rewrite Hnerf, Hg. }
  unfold warmup_epochs in Hep.
  assert (Htake : take (S ep - 1) exts = take (ep - 1) exts ++ [e]).
  { replace (S ep - 1)%nat with (S (ep - 1)) by lia.
    now apply take_S_r. }
  assert (Hl : length (take (ep - 1) exts) = (ep - 1)%nat).
  { rewrite length_take. apply lookup_lt_Some in He. lia. }
  rewrite (lrs_in_epoch_from ep exts r lr0 lr1 Hinit),
          (lrs_in_epoch_from (S ep) exts r lr0 lr1 Hinit).
  rewrite Htake, epochs_snoc.
  destruct (epochs_two_groups lr0 lr1 (take (ep - 1) exts) 1
              (mkLrVars None None) r Hr) as (vars1 & r1 & Hrun & Hr1).
  { now apply Forall_take. }
  rewrite Hrun, Hl. cbn [mbind option_bind].
  replace (1 + (ep - 1))%nat with ep by lia.
  destruct (adjust_lr_two_groups lr0 lr1 ep vars1 r1 Hr1)
    as (vars2 & r2 & Hadj & Hr2 & _ & Hstay).
  rewrite Hadj. simpl.
  assert (Hke : keeps_groups e).
  { eapply Forall_forall in Hk; [exact Hk |].
    eapply list_elem_of_lookup_2; eauto. }
  destruct (one_iteration_two_groups e r2 Hr2 Hke) as (r3 & -> & Hr3 & Hg3).
  simpl.
  destruct (adjust_lr_two_groups lr0 lr1 (S ep) vars2 r3 Hr3)
    as (vars4 & r4 & -> & _ & _ & Hstay4).
  simpl. exists (param_groups_lr r2). split; [reflexivity |].
  f_equal. rewrite Hstay4, Hg3 by (unfold warmup_epochs; lia). reflexivity.
Qed.

Lemma rates_after_warmup_follow_scheduler_witness :
  exists g,
    lrs_in_epoch 11 (replicate 12 (quiet 0 1)) (recon0 (WScalar 1) [1; 1])
      = Some g /\
    lrs_in_epoch 12 (replicate 12 (quiet 0 1)) (recon0 (WScalar 1) [1; 1])
      = Some g.
Proof.
  destruct (rates_after_warmup_follow_scheduler (replicate 12 (quiet 0 1))
              (recon0 (WScalar 1) [1; 1]) 11 (quiet 0 1)) as (g & H1 & H2).
  - apply recon0_two_groups.
  - apply Forall_replicate, quiet_keeps_groups.
  - unfold warmup_epochs. lia.
  - reflexivity.
  - exists g. split; [exact H1 | exact H2].
Defined.

Lemma epochs_weight a b exts : forall ep vars r vars' r' w,
  configured_weight (regularization_weight r) = Some w ->
  exts <> [] ->
  epochs a b ep exts vars r = Some (vars', r') ->
  regularization_weight r' = WScalar w.
Proof.
  induction exts as [|e exts IH]; intros ep vars r vars' r' w Hw Hne H;
    [contradiction |]. simpl in H.
  destruct (adjust_lr a b ep vars r) as [[vars1 r1]|] eqn:Hadj;
    simpl in H; [|discriminate].
  destruct (one_iteration e r1) as [r2|] eqn:Hone; simpl in H;
    [|discriminate].
  apply adjust_lr_keeps in Hadj as (_ & Hwt & _ & _).
  rewrite <- Hwt in Hw.
  destruct (one_iteration_records w e r1 r2 Hw Hone) as (_ & _ & _ & Hw2 & _).
  destruct exts as [|e' exts'].
  - simpl in H. injection H as _ <-. exact Hw2.
  - eapply IH; [|discriminate | exact H]. now rewrite Hw2.
Qed.

(** X14. A regularisation weight given as a list is replaced by its first
    entry in the configuration during the first epoch, and every recorded
    regularisation term uses that entry; an empty list makes the first epoch
    fail. *)
Theorem list_weight_collapses_to_first (exts : list EpochExt) (e : EpochExt)
    (r : Recon) (ws : list Q) :
  regularization_weight r = WList ws ->
  match ws with
  | [] => reconstruct (e :: exts) r = None
  | w :: _ =>
      forall r', reconstruct (e :: exts) r = Some r' ->
        regularization_weight r' = WScalar w /\
        (results r = no_results ->
         loss_reg_term_list (results r')
         = map (fun x => w * ext_reg_loss x) (e :: exts))
  end.
Proof.
  intros Hw. unfold reconstruct. destruct ws as [|w ws].
  - destruct (initial_lrs r) as [[a b]|]; simpl; [|reflexivity].
    destruct (adjust_lr a b 1 _ r) as [[vars1 r1]|] eqn:Hadj; simpl;
      [|reflexivity].
    apply adjust_lr_keeps in Hadj as (_ & Hwt & _ & _).
    unfold one_iteration, _compute_loss. rewrite Hwt, Hw. reflexivity.
  - intros r' H.
    remember (e :: exts) as l eqn:Hl.
    destruct (initial_lrs r) as [[a b]|]; simpl in H; [|discriminate].
    destruct (epochs a b 1 l _ r) as [[vars r1]|] eqn:Hep;
      simpl in H; [|discriminate].
    injection H as <-.
    assert (Hcw : configured_weight (regularization_weight r) = Some w)
      by now rewrite Hw.
    split.
    + eapply epochs_weight; [exact Hcw | | exact Hep]. now subst l.
    + intros Hres.
      destruct (epochs_records w a b _ _ _ _ _ _ Hcw Hep) as (_ & _ & Hg).
      rewrite Hg, Hres. reflexivity.
Qed.

Lemma list_weight_collapses_to_first_witness :
  exists r',
    reconstruct [quiet 0 1; quiet 0 1] (recon0 (WList [2; 3]) [1; 1])
      = Some r' /\
    regularization_weight r' = WScalar 2.
Proof.
  destruct (reconstruct [quiet 0 1; quiet 0 1] (recon0 (WList [2; 3]) [1; 1]))
    as [r'|] eqn:Hrun; [|discriminate Hrun].
  exists r'. split; [reflexivity |].
  exact (proj1 (list_weight_collapses_to_first [quiet 0 1] (quiet 0 1)
                  (recon0 (WList [2; 3]) [1; 1]) [2; 3] eq_refl r' Hrun)).
Defined.

End LoopMore.

(** ** The loss file of a run *)

Section LossFile.
Import Loop Csv Rows.
#[local] Open Scope Q_scope.

Lemma zip4_maps {A B C D E} (f1 : A -> B) (f2 : A -> C) (f3 : A -> D)
    (f4 : A -> E) (l : list A) :
  zip (zip (zip (map f1 l) (map f2 l)) (map f3 l)) (map f4 l)
  = map (fun x => (f1 x, f2 x, f3 x, f4 x)) l.
Proof. induction l as [|x l IH]; simpl; [reflexivity | now rewrite IH]. Qed.

Lemma one_iteration_adjusted ext r r' :
  one_iteration ext r = Some r' ->
  adjusted_lrs_list (results r')
  = adjusted_lrs_list (results r) ++ [recorded_lrs (nerf_mode r) ext].
Proof.
  unfold one_iteration. intros H.
  destruct (_compute_loss _ _ _) as [[w l]|]; simpl in H; [|discriminate].
  injection H as <-. simpl. unfold recorded_lrs.
  destruct (intensity_bool r); reflexivity.
Qed.

Lemma epochs_adjusted a b exts : forall ep vars r vars' r' w,
  configured_weight (regularization_weight r) = Some w ->
  epochs a b ep exts vars r = Some (vars', r') ->
  adjusted_lrs_list (results r')
  = adjusted_lrs_list (results r) ++ map (recorded_lrs (nerf_mode r)) exts.
Proof.
  induction exts as [|e exts IH]; intros ep vars r vars' r' w Hw H;
    simpl in H.
  - injection H as _ <-. simpl. now rewrite app_nil_r.
  - destruct (adjust_lr a b ep vars r) as [[vars1 r1]|] eqn:Hadj;
      simpl in H; [|discriminate].
    destruct (one_iteration e r1) as [r2|] eqn:Hone; simpl in H;
      [|discriminate].
    apply adjust_lr_keeps in Hadj as (Hres & Hwt & Hn & _).
    rewrite <- Hwt in Hw.
    destruct (one_iteration_records w e r1 r2 Hw Hone)
      as (_ & _ & _ & Hw2 & Hn2 & _).
    apply one_iteration_adjusted in Hone.
    erewrite IH; [|now rewrite Hw2 | exact H].
    rewrite Hone, Hres, Hn2, Hn. simpl. now rewrite <- app_assoc.
Qed.

Lemma run_entries (exts : list EpochExt) (r r' : Recon) (w : Q) :
  reconstruct exts r = Some r' ->
  results r = no_results ->
  configured_weight (regularization_weight r) = Some w ->
  zipped_lists (results r') = map (entry_of (nerf_mode r) w) exts.
Proof.
  unfold reconstruct. intros Hrun Hres Hw.
  destruct (initial_lrs r) as [[a b]|]; simpl in Hrun; [|discriminate].
  destruct (epochs a b 1 exts _ r) as [[vars r1]|] eqn:Hep; simpl in Hrun;
    [|discriminate].
  injection Hrun as <-.
  destruct (epochs_records w a b exts _ _ _ _ _ Hw Hep) as (Ht & Hd & Hg).
  pose proof (epochs_adjusted a b exts _ _ _ _ _ w Hw Hep) as Ha.
  rewrite Hres in Ht, Hd, Hg, Ha. simpl in Ht, Hd, Hg, Ha.
  unfold zipped_lists. rewrite Ht, Hd, Hg, Ha. apply zip4_maps.
Qed.

Lemma write_rows_all (nerf : bool) (entries : list (Q * Q * Q * list Q))
    (row : Q * Q * Q * list Q -> list cell) :
  Forall (fun e => loss_row nerf e = Some (row e)) entries ->
  write_rows nerf entries = (map row entries, true).
Proof.
  induction 1 as [|e entries He _ IH]; simpl; [reflexivity |].
  now rewrite He, IH.
Qed.

(** X15. After a run with the two parameter groups, in which every epoch
    reports two adjusted learning rates, the loss file holds the header and
    one row of five numbers per epoch: total, data term, weighted
    regularisation term and the two rates, in the order of the epochs. *)
Theorem loss_file_of_a_standard_run (exts : list EpochExt) (r r' : Recon)
    (w : Q) :
  reconstruct exts r = Some r' ->
  results r = no_results ->
  nerf_mode r = false ->
  configured_weight (regularization_weight r) = Some w ->
  Forall (fun e => length (ext_adjusted_lrs e) = 2%nat) exts ->
  exists rows,
    save_loss_lists_to_csv false (results r') = (loss_header :: rows, true) /\
    length rows = length exts /\
    forall k e, exts !! k = Some e ->
      exists a b,
        ext_adjusted_lrs e = [a; b] /\
        rows !! k = Some [CNumber (ext_data_term e + w * ext_reg_loss e);
                          CNumber (ext_data_term e);
                          CNumber (w * ext_reg_loss e);
                          CNumber a; CNumber b].
Proof.
  intros Hrun Hres Hnerf Hw Hadj.
  pose proof (run_entries exts r r' w Hrun Hres Hw) as Hz.
  rewrite Hnerf in Hz.
  set (row := fun entry : Q * Q * Q * list Q =>
         let '(t, d, g, lr) := entry in
         [CNumber t; CNumber d; CNumber g;
          CNumber (nth 0 lr 0); CNumber (nth 1 lr 0)]).
  assert (Hrows : write_rows false (zipped_lists (results r'))
                  = (map row (zipped_lists (results r')), true)).
  { apply write_rows_all. rewrite Hz. apply Forall_forall.
    intros entry Hin.
    apply list_elem_of_In, in_map_iff in Hin as (e & <- & He).
    eapply Forall_forall in Hadj; [|apply list_elem_of_In; exact He].
    unfold entry_of, recorded_lrs, loss_row, row. simpl in Hadj |- *.
    destruct (ext_adjusted_lrs e) as [|a [|b [|? ?]]]; try discriminate.
    reflexivity. }
  unfold save_loss_lists_to_csv. rewrite Hrows.
  eexists. split; [reflexivity |]. rewrite Hz. split.
  - now rewrite !length_map.
  - intros k e He.
    eapply Forall_forall in Hadj;
      [|eapply list_elem_of_lookup_2; exact He].
    simpl in Hadj.
    destruct (ext_adjusted_lrs e) as [|a [|b [|? ?]]] eqn:Hlr;
      try discriminate.
    exists a, b. split; [reflexivity |].
    rewrite !map_fmap, !list_lookup_fmap, He. simpl.
    unfold recorded_lrs. rewrite Hlr. reflexivity.
Qed.

Lemma loss_file_of_a_standard_run_witness :
  exists r' rows,
    reconstruct [quiet 0 1; quiet 3 1] (recon0 (WScalar 2) [1; 1]) = Some r' /\
    save_loss_lists_to_csv false (results r') = (loss_header :: rows, true) /\
    length rows = 2%nat.
Proof.
  destruct (reconstruct [quiet 0 1; quiet 3 1] (recon0 (WScalar 2) [1; 1]))
    as [r'|] eqn:Hrun; [|discriminate Hrun].
  destruct (loss_file_of_a_standard_run [quiet 0 1; quiet 3 1]
              (recon0 (WScalar 2) [1; 1]) r' 2 Hrun eq_refl eq_refl eq_refl)
    as (rows & Hrows & Hlen & _).
  - repeat constructor.
  - exists r', rows. auto.
Defined.

(** X16. After a run in nerf mode every row of the loss file has four
    cells, the last one holding the list [0], under a header of five
    columns: the rows are one cell short of the header. *)
Theorem loss_file_of_a_nerf_run (exts : list EpochExt) (r r' : Recon)
    (w : Q) :
  reconstruct exts r = Some r' ->
  results r = no_results ->
  nerf_mode r = true ->
  configured_weight (regularization_weight r) = Some w ->
  exists rows,
    save_loss_lists_to_csv true (results r') = (loss_header :: rows, true) /\
    length loss_header = 5%nat /\
    length rows = length exts /\
    forall k e, exts !! k = Some e ->
      rows !! k = Some [CNumber (ext_data_term e + w * ext_reg_loss e);
                        CNumber (ext_data_term e);
                        CNumber (w * ext_reg_loss e);
                        CList [0]].
Proof.
  intros Hrun Hres Hnerf Hw.
  pose proof (run_entries exts r r' w Hrun Hres Hw) as Hz.
  rewrite Hnerf in Hz.
  set (row := fun entry : Q * Q * Q * list Q =>
         let '(t, d, g, lr) := entry in
         [CNumber t; CNumber d; CNumber g; CList lr]).
  assert (Hrows : write_rows true (zipped_lists (results r'))
                  = (map row (zipped_lists (results r')), true)).
  { apply write_rows_all. apply Forall_forall.
    intros [[[t d] g] lr] _. reflexivity. }
  unfold save_loss_lists_to_csv. rewrite Hrows.
  eexists. split; [reflexivity |]. split; [reflexivity |].
  rewrite Hz. split.
  - now rewrite !length_map.
  - intros k e He.
    rewrite !map_fmap, !list_lookup_fmap, He. reflexivity.
Qed.

Lemma loss_file_of_a_nerf_run_witness :
  exists r' rows,
    reconstruct [quiet 0 1] (mkRecon true false (WScalar 2) no_results [1])
      = Some r' /\
    save_loss_lists_to_csv true (results r') = (loss_header :: rows, true) /\
    rows = [[CNumber (0 + 2 * 1); CNumber 0; CNumber (2 * 1); CList [0]]].
Proof.
  destruct (reconstruct [quiet 0 1]
              (mkRecon true false (WScalar 2) no_results [1]))
    as [r'|] eqn:Hrun; [|discriminate Hrun].
  destruct (loss_file_of_a_nerf_run [quiet 0 1]
              (mkRecon true false (WScalar 2) no_results [1]) r' 2 Hrun
              eq_refl eq_refl eq_refl)
    as (rows & Hrows & _ & Hlen & Hrow).
  exists r', rows. split; [reflexivity |]. split; [exact Hrows |].
  specialize (Hrow 0%nat (quiet 0 1) eq_refl).
  destruct rows as [|row [|? ?]]; try discriminate.
  simpl in Hrow. now injection Hrow as ->.
Defined.

End LossFile.

(** ** More on the recovery from NaN *)

Section NanRecoveryMore.
Import Torch Vol Floats Sphere.

Lemma count_true_head (b : bool) (mask : list bool) :
  count_true (b :: mask) = ((if b then 1 else 0) + count_true mask)%nat.
Proof.
  unfold count_true. destruct b.
  - now rewrite filter_cons_True.
  - now rewrite filter_cons_False.
Qed.

Lemma masked_assign_all {A} (P : A -> Prop) (f : A -> bool) :
  (forall x, f x = false -> P x) ->
  forall t vals, Forall P vals ->
    (count_true (map f t) <= length vals)%nat ->
    Forall P (masked_assign t (map f t) vals).
Proof.
  intros Hf. induction t as [|x t IH]; intros vals Hv Hn; simpl.
  - constructor.
  - simpl in Hn. rewrite count_true_head in Hn.
    destruct (f x) eqn:Hfx.
    + destruct vals as [|v vals]; simpl in Hn; [lia |].
      inversion Hv; subst. constructor; [assumption |].
      apply IH; [assumption | lia].
    + constructor; [now apply Hf |]. apply IH; [assumption | simpl in Hn; lia].
Qed.

Lemma count_true_zero {A} (f : A -> bool) (t : list A) :
  count_true (map f t) = 0%nat <-> Forall (fun x => f x = false) t.
Proof.
  induction t as [|x t IH]; simpl.
  - split; [constructor | reflexivity].
  - rewrite count_true_head. split.
    + intros H. destruct (f x) eqn:Hfx; [simpl in H; lia |].
      constructor; [exact Hfx | apply IH; simpl in H; lia].
    + intros H. inversion H as [|? ? Hx Ht]; subst. rewrite Hx. simpl.
      now apply IH.
Qed.

Lemma replace_nans_clears_row_0 (rand : nat -> Vec3 R)
    (volume : Volume (fval R)) (ep : nat) :
  Forall (fun v => isnan (c0 v) = false)
         (data (optic_axis (fst (replace_nans rand volume ep)))).
Proof.
  unfold replace_nans.
  destruct (Nat.ltb_spec 0 (count_true
              (map (fun v => isnan (c0 v)) (data (optic_axis volume)))))
    as [Hpos | Hzero]; simpl.
  - apply (masked_assign_all _ (fun v => isnan (c0 v))); [auto | |].
    + apply Forall_forall. intros v Hv.
      apply list_elem_of_In, in_map_iff in Hv as (k & <- & _). reflexivity.
    + now rewrite length_map, length_seq.
  - apply count_true_zero. lia.
Qed.

(** X17. After one call of [replace_nans] no optic-axis vector has a NaN in
    row 0 any more, so a second call, in any epoch and whatever it would
    sample, changes nothing and reports nothing. *)
Theorem replace_nans_twice (rand rand' : nat -> Vec3 R)
    (volume : Volume (fval R)) (ep ep' : nat) :
  replace_nans rand' (fst (replace_nans rand volume ep)) ep'
  = (fst (replace_nans rand volume ep), None).
Proof.
  pose proof (replace_nans_clears_row_0 rand volume ep) as Hclear.
  apply count_true_zero in Hclear.
  unfold replace_nans at 1. now rewrite Hclear.
Qed.

End NanRecoveryMore.

(** ** More on the vector form *)

Section VectorFormMore.
Import Metric.
#[local] Open Scope R_scope.

Lemma tensor_sum_nonneg (l : list R) :
  Forall (fun x => 0 <= x) l -> 0 <= tensor_sum l.
Proof.
  induction 1 as [|x l Hx _ IH]; simpl; [lra | lra].
Qed.


Lemma squares_nonneg (a b : list R) :
  Forall (fun x => 0 <= x) (zip_with (fun x y => (x - y) * (x - y)) a b).
Proof.
  apply Forall_forall. intros z Hz.
  apply list_elem_of_lookup_1 in Hz as [i Hi].
  apply lookup_zip_with_Some in Hi as (x & y & -> & _).
  apply (Rle_0_sqr (x - y)).
Qed.

Lemma mse_loss_value (input target : list R) :
  length input = length target ->
  mse_loss input target
  = Some (tensor_sum (zip_with (fun x y => (x - y) * (x - y)) input target)
          / INR (length input)).
Proof.
  intros Hlen. unfold mse_loss, elementwise.
  destruct (decide _); [|contradiction]. simpl.
  rewrite length_zip_with. do 3 f_equal. lia.
Qed.

Lemma mse_loss_nonneg (input target : list R) (v : R) :
  mse_loss input target = Some v -> 0 <= v.
Proof.
  unfold mse_loss, elementwise.
  destruct (decide _); [|discriminate]. simpl. intros H. injection H as <-.
  pose proof (tensor_sum_nonneg _ (squares_nonneg input target)) as Hs.
  pose proof (pos_INR (length (zip_with (fun x y => (x - y) * (x - y))
                                 input target))) as Hn.
  unfold Rdiv. apply Rmult_le_pos; [exact Hs |].
  destruct (Req_dec (INR (length (zip_with (fun x y => (x - y) * (x - y))
                                    input target))) 0) as [-> | Hne].
  - rewrite Rinv_0. lra.
  - left. apply Rinv_0_lt_compat. lra.
Qed.

(** X18. On non-empty images the vector-form data term is never negative. *)
Theorem vector_loss_nonnegative (self : PolarimetricLossFunction)
    (ret_pred azim_pred : list R) (v : R) :
  ret_pred <> [] ->
  vector_loss self ret_pred azim_pred = Some v -> 0 <= v.
Proof.
  intros _. unfold vector_loss. intros H.
  destruct (target_retardance self) as [rg|]; [|discriminate H].
  destruct (target_orientation self) as [ag|]; [|discriminate H].
  cbn [mbind option_bind] in H.
  destruct (transform_ret_azim_to_vector_form rg ag) as [gt|];
    [|discriminate H].
  cbn [mbind option_bind] in H.
  destruct (transform_ret_azim_to_vector_form ret_pred azim_pred) as [pred|];
    [|discriminate H].
  cbn [mbind option_bind] in H.
  destruct (mse_loss (fst pred) (fst gt)) as [lc|] eqn:Hc; [|discriminate H].
  cbn [mbind option_bind] in H.
  destruct (mse_loss (snd pred) (snd gt)) as [ls|] eqn:Hs; [|discriminate H].
  cbn [mbind option_bind] in H.
  injection H as <-.
  apply mse_loss_nonneg in Hc, Hs. lra.
Qed.

Lemma vector_loss_nonnegative_witness :
  exists v,
    vector_loss (set_orientation_target
                   (set_retardance_target (mkLossFcn 1 1 1 (1 / 10) None None)
                                          [1]) [0])
                [2] [0] = Some v /\ 0 <= v.
Proof.
  destruct (vector_data_term_defined (mkLossFcn 1 1 1 (1 / 10) None None)
              [1] [0] [2] [0] eq_refl eq_refl eq_refl) as [v Hv].
  exists v. split; [exact Hv |].
  eapply (vector_loss_nonnegative _ [2] [0]); [discriminate | exact Hv].
Defined.

Lemma squares_of_equal (a : list R) :
  tensor_sum (zip_with (fun x y => (x - y) * (x - y)) a a) = 0.
Proof. induction a as [|x a IH]; simpl; [reflexivity | rewrite IH; ring]. Qed.

Lemma squares_of_zeros (a b : list R) :
  Forall (fun x => x = 0) a -> Forall (fun x => x = 0) b ->
  tensor_sum (zip_with (fun x y => (x - y) * (x - y)) a b) = 0.
Proof.
  intros Ha. revert b. induction Ha as [|x a -> _ IH]; intros b Hb; simpl.
  - reflexivity.
  - destruct Hb as [|y b -> Hb]; simpl; [reflexivity |].
    rewrite (IH b Hb). ring.
Qed.

Lemma zero_retardance_vector (f : R -> R) (ret azim : list R) :
  Forall (fun x => x = 0) ret ->
  Forall (fun x => x = 0) (zip_with (fun r a => r * f a) ret azim).
Proof.
  intros Hr. revert azim. induction Hr as [|r ret -> _ IH]; intros azim.
  - constructor.
  - destruct azim as [|a azim]; simpl; constructor; [ring | apply IH].
Qed.

Lemma vector_loss_measured (self : PolarimetricLossFunction)
    (rg ag rp ap : list R) :
  length ag = length rg -> length rp = length rg -> length ap = length rg ->
  vector_loss (Pixelwise.measured self rg ag) rp ap
  = Some (tensor_sum (zip_with (fun x y => (x - y) * (x - y))
                        (zip_with (fun r a => r * cos (2 * a)) rp ap)
                        (zip_with (fun r a => r * cos (2 * a)) rg ag))
          / INR (length rg)
          + tensor_sum (zip_with (fun x y => (x - y) * (x - y))
                          (zip_with (fun r a => r * sin (2 * a)) rp ap)
                          (zip_with (fun r a => r * sin (2 * a)) rg ag))
            / INR (length rg)).
Proof.
  intros H1 H2 H3.
  unfold Pixelwise.measured, vector_loss, transform_ret_azim_to_vector_form,
    elementwise. simpl.
  destruct (decide (length rg = length ag)); [|lia].
  destruct (decide (length rp = length ap)); [|lia]. simpl.
  rewrite !mse_loss_value by (rewrite !length_zip_with; lia). simpl.
  rewrite !length_zip_with.
  replace (length rp `min` length ap)%nat with (length rg) by lia.
  reflexivity.
Qed.

Lemma vector_loss_self (self : PolarimetricLossFunction)
    (ret azim : list R) :
  length azim = length ret ->
  vector_loss (Pixelwise.measured self ret azim) ret azim = Some 0.
Proof.
  intros Hlen. rewrite vector_loss_measured by auto.
  rewrite !squares_of_equal. f_equal. unfold Rdiv. ring.
Qed.

(** X19. When the predicted images are the measured ones, the vector-form
    data term is 0. *)
Theorem vector_loss_of_the_measurement (self : PolarimetricLossFunction)
    (ret azim : list R) :
  ret <> [] -> length azim = length ret ->
  vector_loss (Pixelwise.measured self ret azim) ret azim = Some 0.
Proof. intros _. apply vector_loss_self. Qed.

Lemma vector_loss_of_the_measurement_witness :
  vector_loss (Pixelwise.measured (mkLossFcn 1 1 1 (1 / 10) None None)
                                  [1; 2] [0; PI])
              [1; 2] [0; PI] = Some 0.
Proof.
  apply vector_loss_of_the_measurement; [discriminate | reflexivity].
Defined.

(** X20. When the measured and the predicted retardance are zero everywhere,
    the vector-form data term is 0 whatever the two azimuth images hold. *)
Theorem vector_loss_of_zero_retardance (self : PolarimetricLossFunction)
    (ret_gt azim_gt ret_pred azim_pred : list R) :
  ret_gt <> [] ->
  length azim_gt = length ret_gt -> length ret_pred = length ret_gt ->
  length azim_pred = length ret_gt ->
  Forall (fun x => x = 0) ret_gt -> Forall (fun x => x = 0) ret_pred ->
  vector_loss (Pixelwise.measured self ret_gt azim_gt) ret_pred azim_pred
  = Some 0.
Proof.
  intros _ H1 H2 H3 Hg Hp. rewrite vector_loss_measured by auto.
  rewrite !squares_of_zeros
    by (apply (zero_retardance_vector (fun a => cos (2 * a)))
        || apply (zero_retardance_vector (fun a => sin (2 * a)));
        assumption).
  f_equal. unfold Rdiv. ring.
Qed.

Lemma vector_loss_of_zero_retardance_witness :
  vector_loss (Pixelwise.measured (mkLossFcn 1 1 1 (1 / 10) None None)
                                  [0; 0] [1; 2])
              [0; 0] [3; 4] = Some 0.
Proof.
  apply vector_loss_of_zero_retardance;
    try reflexivity; try discriminate; repeat constructor.
Defined.




Lemma squares_sym (a b : list R) :
  zip_with (fun x y => (x - y) * (x - y)) a b
  = zip_with (fun x y => (x - y) * (x - y)) b a.
Proof.
  revert b. induction a as [|x a IH]; intros [|y b]; simpl; try reflexivity.
  rewrite IH. f_equal. ring.
Qed.

Lemma mse_loss_sym (a b : list R) : mse_loss a b = mse_loss b a.
Proof.
  unfold mse_loss, elementwise.
  destruct (decide (length a = length b)) as [Hab | Hab];
    destruct (decide (length b = length a)) as [Hba | Hba];
    try (exfalso; lia); [|reflexivity].
  simpl. now rewrite squares_sym.
Qed.

(** X22. The vector-form data term treats prediction and measurement
    alike: exchanging the two pairs of images gives the same value, or the
    same failure. *)
Theorem vector_loss_symmetric (self : PolarimetricLossFunction)
    (ret_a azim_a ret_b azim_b : list R) :
  vector_loss (Pixelwise.measured self ret_a azim_a) ret_b azim_b
  = vector_loss (Pixelwise.measured self ret_b azim_b) ret_a azim_a.
Proof.
  unfold Pixelwise.measured, vector_loss. simpl.
  destruct (transform_ret_azim_to_vector_form ret_a azim_a) as [va|];
    destruct (transform_ret_azim_to_vector_form ret_b azim_b) as [vb|];
    simpl; try reflexivity.
  rewrite (mse_loss_sym (fst vb)), (mse_loss_sym (snd vb)).
  destruct (mse_loss (fst va) (fst vb)); simpl; [|reflexivity].
  destruct (mse_loss (snd va) (snd vb)); reflexivity.
Qed.

End VectorFormMore.

(** ** The total loss of the loss class *)

Section TotalLoss.
Import Metric Regularized.
#[local] Open Scope R_scope.
Context {D : Type}.

(** X23. A loss function built from a JSON file has no list of
    regularisation functions, so its regularisation term and its total loss
    cannot be computed, whatever the file, the targets and the images. *)
Theorem total_loss_fails_after_json (params : gmap string R)
    (ret_gt azim_gt ret_pred azim_pred : list R) (data : D) :
  let self :=
    with_core (@init_loss D (Some params))
      (Pixelwise.measured (core (@init_loss D (Some params))) ret_gt azim_gt)
  in
  compute_regularization_term self data = None /\
  compute_total_loss self ret_pred azim_pred data = None.
Proof.
  simpl. split; [reflexivity |].
  unfold compute_total_loss.
  destruct (compute_datafidelity_term _ _ _ _); reflexivity.
Qed.

(** X24. For a loss function built without a file the total loss is the
    vector-form data term: the data weight is 1 and the list of
    regularisation functions is empty. *)
Theorem total_loss_of_default_is_data_term
    (ret_gt azim_gt ret_pred azim_pred : list R) (data : D) :
  let self :=
    with_core (@init_loss D None)
      (Pixelwise.measured (core (@init_loss D None)) ret_gt azim_gt) in
  compute_total_loss self ret_pred azim_pred data
  = vector_loss (core self) ret_pred azim_pred.
Proof.
  simpl. unfold compute_total_loss, compute_datafidelity_term. simpl.
  destruct (vector_loss _ ret_pred azim_pred) as [v|]; simpl; [|reflexivity].
  f_equal. ring.
Qed.

End TotalLoss.

(** ** Variables to learn and optimizer *)

Section Optimizer.
Import Init Optim.

Lemma add_var_NoDup (members : list string) (var : string) :
  NoDup members ->
  NoDup (if decide (var ∈ members) then members else members ++ [var]).
Proof.
  intros Hnd. destruct (decide (var ∈ members)) as [Hin | Hnin]; [exact Hnd |].
  apply NoDup_app. split; [exact Hnd |]. split.
  - intros x Hx Hx'. apply list_elem_of_singleton in Hx'. now subst.
  - apply NoDup_singleton.
Qed.

Lemma learn_fold_spec (vars : list string) : forall members,
  let result :=
    foldl (fun members var =>
             if decide (var ∈ members) then members else members ++ [var])
          members vars in
  (NoDup members -> NoDup result) /\
  (exists added, result = members ++ added) /\
  (forall x, x ∈ result <-> x ∈ members \/ x ∈ vars).
Proof.
  induction vars as [|v vars IH]; intros members; simpl.
  - split; [auto |]. split; [exists []; now rewrite app_nil_r |].
    intros x. split; [auto | intros [H | H]; [exact H | inversion H]].
  - destruct (IH (if decide (v ∈ members) then members else members ++ [v]))
      as (Hnd & (added & Hadd) & Hmem).
    split; [intros H; apply Hnd, add_var_NoDup, H |]. split.
    + destruct (decide (v ∈ members)).
      * exists added. exact Hadd.
      * exists ([v] ++ added). rewrite Hadd. now rewrite <- app_assoc.
    + intros x. rewrite Hmem. rewrite elem_of_cons.
      destruct (decide (v ∈ members)) as [Hin | Hnin].
      * split; [intros [H | H]; auto | intros [H | [-> | H]]; auto].
      * rewrite elem_of_app, list_elem_of_singleton.
        split; [intros [[H | H] | H]; auto | intros [H | [H | H]]; auto].
Qed.

(** X25. [specify_variables_to_learn] only appends: the variables already
    there keep their places, every requested variable is there afterwards
    and nothing else is, no variable is entered twice even when it is
    requested twice, and a second call with the same request changes
    nothing. *)
Theorem specify_variables_to_learn_appends_once (members : list string)
    (learning_vars : option (list string)) :
  let requested := default ["Delta_n"; "optic_axis"]%string learning_vars in
  let result := specify_variables_to_learn members learning_vars in
  (exists added, result = members ++ added) /\
  (forall x, x ∈ result <-> x ∈ members \/ x ∈ requested) /\
  (NoDup members -> NoDup result) /\
  specify_variables_to_learn result learning_vars = result.
Proof.
  simpl. unfold specify_variables_to_learn.
  set (requested := match learning_vars with
                    | Some l => l
                    | None => ["Delta_n"; "optic_axis"]%string
                    end).
  replace (default ["Delta_n"; "optic_axis"]%string learning_vars)
    with requested by (now destruct learning_vars).
  destruct (learn_fold_spec requested members) as (Hnd & Hadd & Hmem).
  split; [exact Hadd |]. split; [exact Hmem |]. split; [exact Hnd |].
  set (result := foldl _ members requested) in *.
  assert (Hall : forall x, x ∈ requested -> x ∈ result)
    by (intros x Hx; apply Hmem; auto).
  clearbody result. clear Hnd Hadd Hmem.
  induction requested as [|v vars IH]; simpl; [reflexivity |].
  rewrite decide_True by (apply Hall; left).
  apply IH. intros x Hx. apply Hall. now right.
Qed.

Lemma specify_variables_to_learn_appends_once_witness :
  specify_variables_to_learn ["Delta_n"]%string
    (Some ["birefringence_active"; "Delta_n"; "birefringence_active"]%string)
  = ["Delta_n"; "birefringence_active"]%string /\
  NoDup (specify_variables_to_learn ["Delta_n"]%string
           (Some ["birefringence_active"; "Delta_n";
                  "birefringence_active"]%string)).
Proof.
  destruct (specify_variables_to_learn_appends_once ["Delta_n"]%string
              (Some ["birefringence_active"; "Delta_n";
                     "birefringence_active"]%string))
    as (_ & _ & Hnd & _).
  split; [reflexivity |]. apply Hnd. apply NoDup_singleton.
Defined.



End Optimizer.
